(** * migrate_test_constants.py: a shallow embedding and its properties

    The script rewrites quoted model and provider literals in [*.test.ts]
    files into references to shared constants and makes sure the two
    constant objects are imported.  The embedding below follows the Python
    source function by function:

    - Python [str] values are lists of Unicode code points ([str]);
    - [in], [str.startswith], [str.replace], [str.split], [str.join] and the
      one [re.sub] call are executable functions on such lists;
    - the two dictionaries are association lists in insertion order, which
      is the order [dict.items()] iterates in;
    - the file system and the two output streams are an explicit [world]
      threaded through a small state-and-exception monad. *)

From Stdlib Require Import NArith Ascii String DecimalString Lia.
From stdpp Require Import base option list gmap.

Local Open Scope N_scope.
Local Open Scope nat_scope.
Local Open Scope list_scope.

(** ** Python strings *)

Module PyStr.

(** A character is a code point, a string a list of them. *)
Abbreviation char := N.
Abbreviation str := (list N).

(** A Python literal from the source, written as a Rocq string.  Every
    literal of the script is ASCII, so the byte values are the code points. *)
Definition py (s : string) : str :=
  List.map N_of_ascii (list_ascii_of_string s).

(** [s.startswith(p)] *)
Fixpoint startswith (p s : str) : bool :=
  match p, s with
  | [], _ => true
  | _ :: _, [] => false
  | a :: p', b :: s' => N.eqb a b && startswith p' s'
  end.

(** [p in s]: exact, case-sensitive substring containment. *)
Fixpoint contains (p s : str) : bool :=
  startswith p s ||
  match s with
  | [] => false
  | _ :: t => contains p t
  end.

(** The scanning loop of [s.replace(old, new)] for a non-empty [old]:
    left to right, non-overlapping.  [skip] counts the characters of the
    current occurrence that are still to be dropped. *)
Fixpoint replace_go (old new : str) (skip : nat) (s : str) : str :=
  match s with
  | [] => []
  | c :: t =>
      match skip with
      | S k => replace_go old new k t
      | O =>
          if startswith old s
          then new ++ replace_go old new (length old - 1) t
          else c :: replace_go old new 0 t
      end
  end.

(** [s.replace(old, new)].  For an empty [old] Python puts [new] before
    every character and at the end. *)
Definition replace (old new s : str) : str :=
  match old with
  | [] => new ++ List.flat_map (fun c => c :: new) s
  | _ :: _ => replace_go old new 0 s
  end.

(** [s.split(sep)] for a one-character separator: never an empty list. *)
Fixpoint split (sep : char) (s : str) : list str :=
  match s with
  | [] => [[]]
  | c :: t =>
      if N.eqb c sep then [] :: split sep t
      else match split sep t with
           | l :: ls => (c :: l) :: ls
           | [] => [[c]]
           end
  end.

(** [sep.join(ls)] *)
Fixpoint join (sep : str) (ls : list str) : str :=
  match ls with
  | [] => []
  | [l] => l
  | l :: ls' => l ++ sep ++ join sep ls'
  end.

(** [l.insert(i, x)]: an index past the end appends. *)
Definition list_insert_at {A : Type} (i : nat) (x : A) (l : list A) : list A :=
  take i l ++ x :: drop i l.

(** [str(n)] for a non-negative integer. *)
Definition str_of_nat (n : nat) : str :=
  py (NilEmpty.string_of_uint (Nat.to_uint n)).

End PyStr.

(** ** The fragment of [re] that the script uses *)

Module PyRe.
Import PyStr.

(** The pattern of the script is a concatenation of literal characters and
    greedy repetitions of a character class.  The capture group of the
    source does not matter: the replacement callable ignores its match. *)
Inductive item : Type :=
  | Lit (c : char)
  | Star (cls : char -> bool)
  | Plus (cls : char -> bool).

Definition regex : Type := list item.

Definition lits (s : str) : regex := List.map Lit s.

(** [\s] on a [str] pattern: the code points for which
    [Py_UNICODE_ISSPACE] holds. *)
Definition is_space (c : char) : bool :=
  ((9 <=? c) && (c <=? 13) || (28 <=? c) && (c <=? 32) ||
   (c =? 133) || (c =? 160) || (c =? 5760) ||
   (8192 <=? c) && (c <=? 8202) || (c =? 8232) || (c =? 8233) ||
   (c =? 8239) || (c =? 8287) || (c =? 12288))%N.

(** Greedy repetition with backtracking: take as many characters of the
    class as there are, and give one back at a time while the rest of the
    pattern [k] fails. *)
Fixpoint star (cls : char -> bool) (k : str -> option str) (s : str)
  : option str :=
  match s with
  | [] => k []
  | c :: t =>
      if cls c
      then match star cls k t with
           | Some r => Some r
           | None => k s
           end
      else k s
  end.

(** [pattern.match(s)] anchored at the start of [s]: the text left after
    the match. *)
Fixpoint re_match (r : regex) (s : str) : option str :=
  match r with
  | [] => Some s
  | Lit c :: r' =>
      match s with
      | x :: t => if N.eqb x c then re_match r' t else None
      | [] => None
      end
  | Star cls :: r' => star cls (re_match r') s
  | Plus cls :: r' =>
      match s with
      | x :: t => if cls x then star cls (re_match r') t else None
      | [] => None
      end
  end.

(** [re.sub(r, lambda m: repl, s)]: every leftmost non-overlapping match is
    replaced.  An empty match is replaced too and the scan moves on by one
    character. *)
Fixpoint sub_go (r : regex) (repl : str) (skip : nat) (s : str) : str :=
  match s with
  | [] =>
      match skip with
      | O => match re_match r [] with Some _ => repl | None => [] end
      | S _ => []
      end
  | c :: t =>
      match skip with
      | S k => sub_go r repl k t
      | O =>
          match re_match r s with
          | Some rest =>
              match length s - length rest with
              | O => repl ++ c :: sub_go r repl 0 t
              | S k => repl ++ sub_go r repl k t
              end
          | None => c :: sub_go r repl 0 t
          end
      end
  end.

Definition re_sub (r : regex) (repl s : str) : str := sub_go r repl 0 s.

(** [pattern.search(s) is not None] *)
Fixpoint re_found (r : regex) (s : str) : bool :=
  match re_match r s with
  | Some _ => true
  | None =>
      match s with
      | [] => false
      | _ :: t => re_found r t
      end
  end.

End PyRe.

(** ** The pure part of the script *)

Module Migrate.
Import PyStr PyRe.

(** [MODEL_MAPPINGS], in insertion order. *)
Definition MODEL_MAPPINGS : list (str * str) :=
  [ (py "'gemini-2.5-pro'", py "LlmModels.Gemini25Pro");
    (py "'gemini-2.5-flash'", py "LlmModels.Gemini25Flash");
    (py "'gemini-2.0-flash'", py "LlmModels.Gemini20Flash");
    (py "'o4-mini-deep-research'", py "LlmModels.O4MiniDeepResearch");
    (py "'o4-mini'", py "LlmModels.O4Mini");
    (py "'o1-deep-research'", py "LlmModels.O1DeepResearch");
    (py "'gpt-4o'", py "LlmModels.Gpt4o");
    (py "'gpt-4o-mini'", py "LlmModels.Gpt4oMini");
    (py "'claude-sonnet-4-5-20250929'", py "LlmModels.ClaudeSonnet4520250929");
    (py "'claude-sonnet-4-20250514'", py "LlmModels.ClaudeSonnet420250514");
    (py "'claude-opus-4-5-20251101'", py "LlmModels.ClaudeOpus4520251101");
    (py "'sonar-pro'", py "LlmModels.SonarPro");
    (py "'imagen-3'", py "LlmModels.Imagen3");
    (py "'dall-e-3'", py "LlmModels.DallE3") ].

(** [PROVIDER_MAPPINGS], in insertion order. *)
Definition PROVIDER_MAPPINGS : list (str * str) :=
  [ (py "'google'", py "LlmProviders.Google");
    (py "'anthropic'", py "LlmProviders.Anthropic");
    (py "'openai'", py "LlmProviders.OpenAI");
    (py "'perplexity'", py "LlmProviders.Perplexity") ].

(** [list(d.keys())] *)
Definition keys (d : list (str * str)) : list str := List.map fst d.

(** [needs_migration(content)]: the loop returns at the first pattern that
    is found. *)
Fixpoint any_in (patterns : list str) (content : str) : bool :=
  match patterns with
  | [] => false
  | pattern :: more =>
      if contains pattern content then true else any_in more content
  end.

Definition needs_migration (content : str) : bool :=
  any_in (keys MODEL_MAPPINGS ++ keys PROVIDER_MAPPINGS) content.

Definition import_statement : str :=
  py "import { LlmModels, LlmProviders } from '@intexuraos/llm-contract';".

(** [r"import\s*{([^}]+)}\s*from\s*'@intexuraos/llm-contract';"] *)
Definition import_re : regex :=
  lits (py "import") ++
  [ Star is_space; Lit 123%N; Plus (fun c => negb (N.eqb c 125)); Lit 125%N;
    Star is_space ] ++
  lits (py "from") ++
  [ Star is_space ] ++
  lits (py "'@intexuraos/llm-contract';").

(** [line.startswith('import ') and 'from' in line] *)
Definition is_import_line (line : str) : bool :=
  startswith (py "import ") line && contains (py "from") line.

(** The index at which the [enumerate] loop stops, counted from [i]. *)
Fixpoint first_import_line (i : nat) (lines : list str) : option nat :=
  match lines with
  | [] => None
  | line :: more =>
      if is_import_line line then Some i else first_import_line (S i) more
  end.

(** [add_import_if_needed(content)] *)
Definition add_import_if_needed (content : str) : str :=
  if contains (py "LlmModels") content && contains (py "LlmProviders") content
  then content
  else if contains (py "from '@intexuraos/llm-contract'") content
  then re_sub import_re import_statement content
  else
    let lines := split 10%N content in
    match first_import_line 0 lines with
    | Some i => join [10%N] (list_insert_at (i + 1) import_statement lines)
    | None => content
    end.

(** [for old, new in d.items(): content = content.replace(old, new)] *)
Fixpoint replace_all (d : list (str * str)) (content : str) : str :=
  match d with
  | [] => content
  | (old, new) :: more => replace_all more (replace old new content)
  end.

(** The text that [migrate_file] writes back for a file that needs
    migration: lines 79 to 87 of the script. *)
Definition rewrite (content : str) : str :=
  replace_all PROVIDER_MAPPINGS
    (replace_all MODEL_MAPPINGS (add_import_if_needed content)).

End Migrate.

(** ** Files, output streams and exceptions *)

Module World.
Import PyStr.

(** What the operating system does with a file: [f_data] is the text that
    reading yields (decoded, newlines translated) or the detail of the
    exception that [open]/[read] raises;
    [f_locked] is the detail of the exception that opening for writing
    raises, if it does. *)
Record file : Type := File {
  f_data : str + str;
  f_locked : option str
}.

(** What is found at a base directory: [base_path.exists()] raises, or the
    directory exists and [rglob("*.test.ts")] yields [files] one by one and
    then, if [fault] is given, raises. *)
Inductive base_state : Type :=
  | Unreachable (detail : str)
  | Found (files : list str) (fault : option str).

(** [names] maps a path to the file it names, and several paths may name
    one file (links); [fs] holds the files; [tree] says what is found at a
    base directory, a directory that does not exist having no entry;
    [enoent] is the text of the [FileNotFoundError] for a path that names
    no file; [out_fault] is the detail of the exception that printing a
    text to standard output raises, if it does (a text that the encoding of
    the stream cannot represent); [out] and [err] are the lines printed so
    far, oldest first. *)
Record world : Type := Mk {
  names : gmap (list N) positive;
  fs : gmap positive file;
  tree : gmap (list N) base_state;
  enoent : list N -> list N;
  out_fault : list N -> option (list N);
  out : list str;
  err : list str
}.

Inductive outcome (A : Type) : Type :=
  | Return (a : A)
  | Raise (detail : str).
Arguments Return {A} a.
Arguments Raise {A} detail.

Definition M (A : Type) : Type := world -> world * outcome A.

Definition ret {A : Type} (a : A) : M A := fun w => (w, Return a).
Definition raise {A : Type} (e : str) : M A := fun w => (w, Raise e).

Definition bind {A B : Type} (m : M A) (k : A -> M B) : M B :=
  fun w =>
    match m w with
    | (w', Return a) => k a w'
    | (w', Raise e) => (w', Raise e)
    end.

(** [try: body except Exception as e: handler(e)] *)
Definition try_except {A : Type} (body : M A) (handler : str -> M A) : M A :=
  fun w =>
    match body w with
    | (w', Return a) => (w', Return a)
    | (w', Raise e) => handler e w'
    end.

Declare Scope py_scope.
Delimit Scope py_scope with py.
Notation "'let*' x ':=' m 'in' k" := (bind m (fun x => k))
  (at level 10, x name, m at level 100, k at level 200) : py_scope.
Notation "'run' m 'in' k" := (bind m (fun _ => k))
  (at level 10, m at level 100, k at level 200) : py_scope.

Definition set_fs (f : gmap positive file) (w : world) : world :=
  Mk (names w) f (tree w) (enoent w) (out_fault w) (out w) (err w).

(** [print(line)]: the line is written unless the stream refuses it. *)
Definition print (line : str) : M unit :=
  fun w =>
    match out_fault w line with
    | Some e => (w, Raise e)
    | None =>
        (Mk (names w) (fs w) (tree w) (enoent w) (out_fault w)
            (out w ++ [line]) (err w), Return tt)
    end.

(** [print(line, file=sys.stderr)]: the error stream escapes what it
    cannot encode, so no text is refused. *)
Definition eprint (line : str) : M unit :=
  fun w =>
    (Mk (names w) (fs w) (tree w) (enoent w) (out_fault w)
        (out w) (err w ++ [line]), Return tt).

(** The file that a path names. *)
Definition file_of (path : str) (w : world) : option file :=
  match names w !! path with
  | Some i => fs w !! i
  | None => None
  end.

(** [with open(path, 'r', encoding='utf-8') as f: f.read()] *)
Definition read_text (path : str) : M str :=
  fun w =>
    match file_of path w with
    | None => (w, Raise (enoent w path))
    | Some f =>
        match f_data f with
        | inl content => (w, Return content)
        | inr e => (w, Raise e)
        end
    end.

(** [with open(path, 'w', encoding='utf-8') as f: f.write(content)]: the
    file that the path names gets the text, for every path that names it;
    a path that names no file gets a new one. *)
Definition write_text (path content : str) : M unit :=
  fun w =>
    match names w !! path with
    | Some i =>
        match fs w !! i with
        | Some f =>
            match f_locked f with
            | Some e => (w, Raise e)
            | None =>
                (set_fs (<[i := File (inl content) None]> (fs w)) w, Return tt)
            end
        | None =>
            (set_fs (<[i := File (inl content) None]> (fs w)) w, Return tt)
        end
    | None =>
        let i := fresh (dom (fs w)) in
        (Mk (<[path := i]> (names w)) (<[i := File (inl content) None]> (fs w))
            (tree w) (enoent w) (out_fault w) (out w) (err w), Return tt)
    end.

End World.

(** ** The effectful part of the script *)

Module Script.
Import PyStr Migrate World.
Local Open Scope py_scope.

(** The [try] block of [migrate_file]. *)
Definition migrate_file_try (file_path : str) : M bool :=
  let* content := read_text file_path in
  if negb (needs_migration content) then ret false
  else
    run print (py "Migrating: " ++ file_path) in
    let content := add_import_if_needed content in
    let content := replace_all MODEL_MAPPINGS content in
    let content := replace_all PROVIDER_MAPPINGS content in
    run write_text file_path content in
    ret true.

(** The [except Exception as e] block of [migrate_file]. *)
Definition migrate_file_except (file_path e : str) : M bool :=
  run eprint (py "Error migrating " ++ file_path ++ py ": " ++ e) in
  ret false.

(** [migrate_file(file_path)] *)
Definition migrate_file (file_path : str) : M bool :=
  try_except (migrate_file_try file_path) (migrate_file_except file_path).

(** The inner loop of [main]: [for test_file in ...: if migrate_file(...):
    migrated_count += 1]. *)
Fixpoint migrate_each (files : list str) (migrated_count : nat) : M nat :=
  match files with
  | [] => ret migrated_count
  | test_file :: more =>
      let* migrated := migrate_file test_file in
      migrate_each more
        (if migrated then migrated_count + 1 else migrated_count)
  end.

(** The outer loop of [main]: a base path that does not exist is skipped;
    [exists()] and the iteration of [rglob] stand outside any [try], so
    what they raise ends the loop. *)
Fixpoint each_base (base_paths : list str) (migrated_count : nat) : M nat :=
  match base_paths with
  | [] => ret migrated_count
  | base_path :: more =>
      fun w =>
        match tree w !! base_path with
        | None => each_base more migrated_count w
        | Some (Unreachable e) => (w, Raise e)
        | Some (Found files fault) =>
            (let* n := migrate_each files migrated_count in
             match fault with
             | Some e => raise e
             | None => each_base more n
             end) w
        end
  end.

Definition summary (migrated_count : nat) : str :=
  [10%N] ++ py "Migration complete! Migrated " ++
  str_of_nat migrated_count ++ py " files.".

(** [main()] *)
Definition main : M unit :=
  let* migrated_count := each_base [py "apps"; py "packages"] 0 in
  print (summary migrated_count).

End Script.

(** ** Vocabulary of the statements *)

Module Spec.
Import PyStr PyRe Migrate World Script.

(** [p] occurs in [s] as a contiguous substring. *)
Definition occurs (p s : str) : Prop := exists l r, s = l ++ p ++ r.

(** [x] is empty or ends with the character [q]. *)
Definition closed_by (q : char) (x : str) : Prop :=
  x = [] \/ exists y, x = y ++ [q].

(** The quote character that delimits every key of the two tables. *)
Definition quote : char := 39%N.

(** The combined table, in the order the two loops of [migrate_file] go
    through it. *)
Definition ALL_MAPPINGS : list (str * str) :=
  MODEL_MAPPINGS ++ PROVIDER_MAPPINGS.

(** A key is a quoted literal: it starts and ends with [q] and the two are
    different characters of it. *)
Definition key_ok (q : char) (old : str) : bool :=
  match old with
  | c :: body => N.eqb c q && match last body with
                              | Some z => N.eqb z q
                              | None => false
                              end
  | [] => false
  end.

(** A replacement symbol is not empty and has no [q] in it. *)
Definition symbol_ok (q : char) (new : str) : bool :=
  match new with
  | [] => false
  | _ :: _ => forallb (fun c => negb (N.eqb c q)) new
  end.

(** Both target symbol names appear somewhere in the text: the first test
    of [add_import_if_needed]. *)
Definition has_both (content : str) : bool :=
  contains (py "LlmModels") content && contains (py "LlmProviders") content.

(** The text that the second test of [add_import_if_needed] looks for. *)
Definition from_path : str := py "from '@intexuraos/llm-contract'".

(** The texts that [import_re] matches: a braced import clause from the
    target module, with its three runs of white space and, between the
    braces, a non-empty text without a closing brace. *)
Definition import_clause (ws1 syms ws2 ws3 : str) : str :=
  py "import" ++ ws1 ++ [123%N] ++ syms ++ [125%N] ++ ws2 ++
  py "from" ++ ws3 ++ py "'@intexuraos/llm-contract';".

Definition clause_ok (ws1 syms ws2 ws3 : str) : Prop :=
  forallb is_space ws1 = true /\ syms <> [] /\
  forallb (fun c => negb (N.eqb c 125)) syms = true /\
  forallb is_space ws2 = true /\ forallb is_space ws3 = true.

(** No match of [r] starts at a position of [pre] in [pre ++ tail]. *)
Fixpoint no_match_in (r : regex) (pre tail : str) : bool :=
  match pre with
  | [] => true
  | _ :: pre' =>
      match re_match r (pre ++ tail) with
      | Some _ => false
      | None => no_match_in r pre' tail
      end
  end.

(** What one run of [migrate_file] makes of the text of a file it can read
    and write. *)
Definition per_file (content : str) : str :=
  if needs_migration content then rewrite content else content.

(** The world and the result of a computation. *)
Definition exec {A : Type} (m : M A) (w : world) : world := fst (m w).
Definition result {A : Type} (m : M A) (w : world) : outcome A := snd (m w).

Definition migrating_line (path : str) : str := py "Migrating: " ++ path.
Definition error_line (path e : str) : str :=
  py "Error migrating " ++ path ++ py ": " ++ e.

Definition add_err (line : str) (w : world) : world :=
  Mk (names w) (fs w) (tree w) (enoent w) (out_fault w) (out w)
     (err w ++ [line]).
Definition add_out (line : str) (w : world) : world :=
  Mk (names w) (fs w) (tree w) (enoent w) (out_fault w) (out w ++ [line])
     (err w).

(** The text of a file that can be read. *)
Definition readable_text (path : str) (w : world) : option str :=
  match file_of path w with
  | Some f => match f_data f with inl content => Some content | inr _ => None end
  | None => None
  end.

(** The file can be read and its text needs migration. *)
Definition eligible (path : str) (w : world) : bool :=
  match readable_text path w with
  | Some content => needs_migration content
  | None => false
  end.

(** Standard output takes the line. *)
Definition printable (line : str) (w : world) : bool :=
  match out_fault w line with None => true | Some _ => false end.

(** The file can be opened for writing. *)
Definition writable (path : str) (w : world) : bool :=
  match file_of path w with
  | Some f => match f_locked f with None => true | Some _ => false end
  | None => true
  end.

(** The file is read, needs migration, is announced and is written back. *)
Definition migratable (path : str) (w : world) : bool :=
  eligible path w && printable (migrating_line path) w && writable path w.

(** The number of files of a run that are read, need migration, are
    announced and are written back, each looked at in the world its
    predecessors leave. *)
Fixpoint successes (files : list str) (w : world) : nat :=
  match files with
  | [] => 0
  | path :: more =>
      (if migratable path w then 1 else 0) +
      successes more (exec (migrate_file path) w)
  end.

(** The facts about a mapping table that the substitution relies on: keys
    are quoted, symbols are quote-free, and no symbol is part of a key. *)
Definition table_ok (q : char) (d : list (str * str)) : bool :=
  forallb (fun kv => key_ok q (fst kv) && symbol_ok q (snd kv)) d &&
  forallb (fun kv => forallb (fun kv' => negb (contains (snd kv') (fst kv))) d) d.

(** *** Example texts and an example world *)

(** A newline. *)
Definition nl : str := [10%N].

Definition example_braced : str :=
  py "import { Foo } from '@intexuraos/llm-contract';" ++ nl ++
  py "const m = 'gemini-2.5-pro';".

Definition example_overlap : str := py "'google'gemini-2.5-pro'".

(** Three files under [apps]: one that cannot be read, one that can be read
    but not written, and one that can be migrated; a fourth holds a literal
    in the wrong case. *)
Definition path_a : str := py "apps/a.test.ts".
Definition path_b : str := py "apps/b.test.ts".
Definition path_c : str := py "apps/c.test.ts".
Definition path_d : str := py "apps/d.test.ts".

Definition denied (path : str) : str :=
  py "[Errno 13] Permission denied: '" ++ path ++ py "'".

(** In the example world every path names a file of its own, nothing is
    wrong with the directories, and standard output takes every line. *)
Definition example_world : world :=
  Mk (<[path_a := 1%positive]> (<[path_b := 2%positive]>
      (<[path_c := 3%positive]> (<[path_d := 4%positive]> ∅))))
     (<[1%positive := File (inr (denied path_a)) None]>
      (<[2%positive := File (inl (py "x = 'google'")) (Some (denied path_b))]>
       (<[3%positive := File (inl (py "x = 'google'")) None]>
        (<[4%positive := File (inl (py "x = 'Google'")) None]> ∅))))
     (<[py "apps" := Found [path_a; path_b; path_c; path_d] None]> ∅)
     (fun path => py "[Errno 2] No such file or directory: " ++ path)
     (fun _ => None) [] [].

Definition example_default : str :=
  py "import Foo from '@intexuraos/llm-contract';" ++ nl ++
  py "import z from 'w';" ++ nl ++
  py "const m = 'gemini-2.5-pro';".

Definition example_bare : str := py "const m = 'gemini-2.5-pro';".

Definition example_unrelated : str :=
  py "// test" ++ nl ++ py "import x from 'y';" ++ nl ++
  py "import z from 'w';" ++ nl ++ py "const m = 'gpt-4o';".

(** *** Vocabulary of the driver *)

(** The files that the loop over a base goes through, and the exception
    that ends it, if one does. *)
Definition base_files (base : str) (w : world) : list str :=
  match tree w !! base with
  | Some (Found files _) => files
  | _ => []
  end.

Definition base_fault (base : str) (w : world) : option str :=
  match tree w !! base with
  | Some (Unreachable e) => Some e
  | Some (Found _ fault) => fault
  | None => None
  end.

(** The files that [main] goes through, in its order: those under [apps]
    and, unless the discovery there raised, those under [packages]; a base
    that does not exist gives none. *)
Definition discovered (w : world) : list str :=
  base_files (py "apps") w ++
  match base_fault (py "apps") w with
  | Some _ => []
  | None => base_files (py "packages") w
  end.

(** The exception that ends the discovery, if one does. *)
Definition discovery_fault (w : world) : option str :=
  match base_fault (py "apps") w with
  | Some e => Some e
  | None => base_fault (py "packages") w
  end.

(** The detail of the exception that a call of [migrate_file] meets, if it
    meets one: the file cannot be read, or it needs migration and either
    the progress line cannot be printed or the file cannot be opened for
    writing. *)
Definition failure (path : str) (w : world) : option str :=
  match file_of path w with
  | None => Some (enoent w path)
  | Some f =>
      match f_data f with
      | inr e => Some e
      | inl content =>
          if needs_migration content then
            match out_fault w (migrating_line path) with
            | Some e => Some e
            | None => f_locked f
            end
          else None
      end
  end.

(** The progress line of the file is printed. *)
Definition announced (path : str) (w : world) : bool :=
  eligible path w && printable (migrating_line path) w.

(** The progress lines and the error lines of a loop over [files], each
    file looked at in the world its predecessors leave. *)
Fixpoint progress (files : list str) (w : world) : list str :=
  match files with
  | [] => []
  | path :: more =>
      (if announced path w then [migrating_line path] else []) ++
      progress more (exec (migrate_file path) w)
  end.

Fixpoint reports (files : list str) (w : world) : list str :=
  match files with
  | [] => []
  | path :: more =>
      match failure path w with
      | Some e => [error_line path e]
      | None => []
      end ++ reports more (exec (migrate_file path) w)
  end.

(** A text in which the literal stands between double quotes. *)
Definition example_double_quoted : str :=
  py "const p = " ++ [34%N] ++ py "google" ++ [34%N] ++ py ";".

Definition path_other : str := py "src/other.ts".

Definition example_wrong_case : str := py "const p = 'Google';".

(** *** One pass instead of eighteen *)

(** The first pair of the table whose key the text starts with. *)
Fixpoint lookup_prefix (d : list (str * str)) (s : str) : option (str * str) :=
  match d with
  | [] => None
  | (k, v) :: d' => if startswith k s then Some (k, v) else lookup_prefix d' s
  end.

(** One scan from left to right that replaces the key found at the current
    position by its symbol and copies every other character.  The scan
    gives up ([None]) when a key that it replaces ends with a quote at
    which another key starts: that is where the order of the loops of
    [migrate_file] begins to matter. *)
Fixpoint one_pass (d : list (str * str)) (skip : nat) (s : str) : option str :=
  match s with
  | [] => Some []
  | c :: t =>
      match skip with
      | S k => one_pass d k t
      | O =>
          match lookup_prefix d s with
          | Some (k, v) =>
              match lookup_prefix d (drop (length k - 1) s) with
              | Some _ => None
              | None => option_map (app v) (one_pass d (length k - 1) t)
              end
          | None => option_map (cons c) (one_pass d 0 t)
          end
      end
  end.

(** A text cut into copied characters and occurrences of keys. *)
Inductive token : Type :=
  | Chr (c : char)
  | Key (k v : str).

Fixpoint source (toks : list token) : str :=
  match toks with
  | [] => []
  | Chr c :: ts => c :: source ts
  | Key k _ :: ts => k ++ source ts
  end.

(** The text after the loops have dealt with the keys in [seen]. *)
Fixpoint render (seen : list str) (toks : list token) : str :=
  match toks with
  | [] => []
  | Chr c :: ts => c :: render seen ts
  | Key k v :: ts =>
      (if bool_decide (k ∈ seen) then v else k) ++ render seen ts
  end.

(** The cut is the one that [one_pass] makes. *)
Fixpoint valid (d : list (str * str)) (toks : list token) : Prop :=
  match toks with
  | [] => True
  | Chr c :: ts => lookup_prefix d (c :: source ts) = None /\ valid d ts
  | Key k v :: ts =>
      lookup_prefix d (k ++ source ts) = Some (k, v) /\
      lookup_prefix d (drop (length k - 1) (k ++ source ts)) = None /\
      valid d ts
  end.

(** What the comparison of the loops with one pass needs of a table, on
    top of [table_ok]: no quote inside a key, and no key twice. *)
Definition inner_ok (q : char) (k : str) : bool :=
  match k with
  | _ :: body => forallb (fun c => negb (N.eqb c q)) (removelast body)
  | [] => true
  end.

Definition table_strict (q : char) (d : list (str * str)) : bool :=
  table_ok q d && forallb (fun kv => inner_ok q (fst kv)) d &&
  bool_decide (NoDup (keys d)).

(** A text with three literals, two of them for the same key. *)
Definition example_three : str :=
  py "f('gpt-4o', 'openai', 'gpt-4o-mini', 'gpt-4o')".

(** *** Where a literal stands *)

(** [s.endswith(x)] *)
Definition ends_with (x s : str) : bool := startswith (rev x) (rev s).

(** The pairs of a table that come before the key [old]: the turns of the
    loops that are over when the turn of [old] comes. *)
Fixpoint earlier (old : str) (d : list (str * str)) : list (str * str) :=
  match d with
  | [] => []
  | kv :: more =>
      if bool_decide (fst kv = old) then [] else kv :: earlier old more
  end.

(** The occurrence of the key [old] between [l] and [r] shares no quote
    with an occurrence of a key that is replaced before it: none ends at
    its opening quote and none starts at its closing quote. *)
Definition apart (old l r : str) : bool :=
  forallb (fun kv =>
             negb (ends_with (removelast (fst kv)) l) &&
             negb (startswith (tl (fst kv)) r))
          (earlier old ALL_MAPPINGS).

(** The scan of [re.sub] over [l ++ tail] is not inside a match when it has
    gone through [l]: the counterpart of [sub_go] that only keeps track of
    where the matches are. *)
Fixpoint outside (r : regex) (skip : nat) (l tail : str) : bool :=
  match l with
  | [] => match skip with O => true | S _ => false end
  | _ :: l' =>
      match skip with
      | S k => outside r k l' tail
      | O =>
          match re_match r (l ++ tail) with
          | Some rest =>
              match length (l ++ tail) - length rest with
              | O => outside r 0 l' tail
              | S k => outside r k l' tail
              end
          | None => outside r 0 l' tail
          end
      end
  end.

(** The occurrence of [old] between [l] and [r] is not part of an import
    clause that the import-ensuring step replaces: the step does not get to
    its [re.sub], or the scan of [re.sub] is outside every match when it
    reaches the occurrence. *)
Definition kept (l old r : str) : bool :=
  has_both (l ++ old ++ r) || negb (contains from_path (l ++ old ++ r)) ||
  outside import_re 0 l (old ++ r).

(** On top of [table_strict]: no key has a newline or the word [import] in
    it. *)
Definition table_plain (d : list (str * str)) : bool :=
  forallb (fun kv => forallb (fun c => negb (N.eqb c 10)) (fst kv) &&
                     negb (contains (py "import") (fst kv))) d.

(** No occurrence of a key of [D] ends at the quote that follows [a] or
    starts at the quote that precedes [b]. *)
Definition clear_of (D : list (str * str)) (a b : str) : Prop :=
  forall k v, (k, v) ∈ D ->
    ~ removelast k `suffix_of` a /\ ~ tl k `prefix_of` b.

(** Some line of the text is an import from the target module: it starts
    with the import keyword and names the module path. *)
Definition imports_from_target (content : str) : bool :=
  existsb (fun line => startswith (py "import") line &&
                       contains (py "'@intexuraos/llm-contract'") line)
          (split 10 content).

(** The module path is named in a comment; the only import is from
    elsewhere. *)
Definition example_see_comment : str :=
  py "// see from '@intexuraos/llm-contract'" ++ nl ++
  py "import x from 'y';" ++ nl ++ py "const m = 'gpt-4o';".

(** A braced import from the target module that is commented out; no line
    starts with the import keyword. *)
Definition example_commented_import : str :=
  py "// import { Foo } from '@intexuraos/llm-contract';" ++ nl ++
  py "const m = 'gpt-4o';".

(** A literal between the braces of an import clause from the target
    module. *)
Definition example_literal_in_clause : str :=
  py "import { 'google' } from '@intexuraos/llm-contract';".

(** A world in which the one discovered test file has a second name
    outside the two bases (a hard link), next to a file of its own. *)
Definition path_link : str := py "src/a.ts".

Definition example_linked : world :=
  Mk (<[path_a := 1%positive]> (<[path_link := 1%positive]>
      (<[path_other := 2%positive]> ∅)))
     (<[1%positive := File (inl (py "x = 'google'")) None]>
      (<[2%positive := File (inl (py "y = 'openai'")) None]> ∅))
     (<[py "apps" := Found [path_a] None]> ∅)
     (fun path => py "[Errno 2] No such file or directory: " ++ path)
     (fun _ => None) [] [].

(** A world whose standard output refuses every line, and one in which the
    discovery under [apps] is refused. *)
Definition example_mute : world :=
  Mk (names example_world) (fs example_world) (tree example_world)
     (enoent example_world)
     (fun _ => Some (py "'utf-8' codec can't encode character"))
     [] [].

Definition example_unreachable : world :=
  Mk (names example_world) (fs example_world)
     (<[py "apps" := Unreachable (denied (py "apps"))]> ∅)
     (enoent example_world) (fun _ => None) [] [].

End Spec.

(** ** Facts about the string operations *)

Module StrFacts.
Import PyStr Spec.

Lemma startswith_spec (p s : str) :
  startswith p s = true <-> exists r, s = p ++ r.
Proof.
  revert s. induction p as [|a p IH]; intros s; simpl.
  - split; [intros _; by exists s | done].
  - destruct s as [|b s].
    + split; [done | intros [r Hr]; discriminate].
    + rewrite andb_true_iff, N.eqb_eq, IH. split.
      * intros [-> [r ->]]. by exists r.
      * intros [r Hr]. injection Hr as -> ->. split; [done | by exists r].
Qed.

Lemma startswith_app (p r : str) : startswith p (p ++ r) = true.
Proof. apply startswith_spec. by exists r. Qed.

Lemma occurs_here (p s : str) : startswith p s = true -> occurs p s.
Proof. intros [r ->]%startswith_spec. by exists [], r. Qed.

Lemma occurs_cons (p : str) (c : char) (s : str) :
  occurs p s -> occurs p (c :: s).
Proof. intros (l & r & ->). by exists (c :: l), r. Qed.

Lemma occurs_app_l (p s t : str) : occurs p s -> occurs p (s ++ t).
Proof.
  intros (l & r & ->). exists l, (r ++ t). by rewrite <- !app_assoc.
Qed.

Lemma occurs_app_r (p s t : str) : occurs p t -> occurs p (s ++ t).
Proof.
  intros (l & r & ->). exists (s ++ l), r. by rewrite <- !app_assoc.
Qed.

Lemma occurs_nil_inv (p : str) : occurs p [] -> p = [].
Proof.
  intros (l & r & H). symmetry in H.
  apply app_eq_nil in H as [_ H]. by apply app_eq_nil in H as [H _].
Qed.

Lemma occurs_cons_inv (p : str) (c : char) (s : str) :
  occurs p (c :: s) -> startswith p (c :: s) = true \/ occurs p s.
Proof.
  intros ([|x l] & r & H).
  - left. apply startswith_spec. by exists r.
  - right. injection H as _ ->. by exists l, r.
Qed.

Lemma contains_spec (p s : str) : contains p s = true <-> occurs p s.
Proof.
  induction s as [|c s IH]; simpl.
  - rewrite orb_false_r. split; [apply occurs_here |].
    intros ->%occurs_nil_inv. done.
  - rewrite orb_true_iff, IH. split.
    + intros [H | H]; [by apply occurs_here | by apply occurs_cons].
    + apply occurs_cons_inv.
Qed.

Lemma contains_false (p s : str) : contains p s = false <-> ~ occurs p s.
Proof.
  rewrite <- contains_spec. destruct (contains p s); intuition congruence.
Qed.

(** *** The scanning loop of [replace] *)

Lemma replace_go_skip (old new x rest : str) :
  replace_go old new (length x) (x ++ rest) = replace_go old new 0 rest.
Proof.
  induction x as [|c x IH]; simpl; [done | apply IH].
Qed.

Lemma replace_go_hit (old new rest : str) :
  old <> [] ->
  replace_go old new 0 (old ++ rest) = new ++ replace_go old new 0 rest.
Proof.
  intros Hne. destruct old as [|o old']; [done |].
  pose proof (startswith_app (o :: old') rest) as H.
  cbn [app] in *. cbn [replace_go]. rewrite H. f_equal.
  replace (length (o :: old') - 1) with (length old') by (simpl; lia).
  apply replace_go_skip.
Qed.

Lemma replace_go_miss (old new : str) (c : char) (t : str) :
  startswith old (c :: t) = false ->
  replace_go old new 0 (c :: t) = c :: replace_go old new 0 t.
Proof. intros H. cbn [replace_go]. by rewrite H. Qed.

(** Induction along the scan: the text is empty, starts with an occurrence
    that is replaced, or starts with a character that is copied. *)
Lemma replace_go_ind (old new : str) (P : str -> str -> Prop) :
  old <> [] ->
  P [] [] ->
  (forall rest, P rest (replace_go old new 0 rest) ->
                P (old ++ rest) (new ++ replace_go old new 0 rest)) ->
  (forall c t, startswith old (c :: t) = false ->
               P t (replace_go old new 0 t) ->
               P (c :: t) (c :: replace_go old new 0 t)) ->
  forall s, P s (replace_go old new 0 s).
Proof.
  intros Hne Hnil Hhit Hmiss s.
  remember (length s) as n eqn:Hn. revert s Hn.
  induction n as [n IH] using lt_wf_ind. intros [|c t] Hn; [exact Hnil |].
  destruct (startswith old (c :: t)) eqn:E.
  - apply startswith_spec in E as [rest E]. rewrite E, replace_go_hit by done.
    apply Hhit. apply (IH (length rest)); [|done].
    rewrite Hn, E, length_app. destruct old; [done | simpl; lia].
  - rewrite replace_go_miss by done. apply Hmiss; [done |].
    apply (IH (length t)); [subst n; simpl; lia | done].
Qed.

Lemma closed_by_tail (q c : char) (x : str) :
  closed_by q (c :: x) -> closed_by q x.
Proof.
  intros [H | [[|a y] H]]; [done | |].
  - injection H as _ ->. by left.
  - injection H as _ ->. right. by exists y.
Qed.

(** *** A symbol without the quote cannot fake a quoted key *)

Section QuoteFreeSymbol.
Variables (q : char) (old new : str).
Hypothesis old_nonempty : old <> [].
Hypothesis new_nonempty : new <> [].
Hypothesis new_quote_free : q ∉ new.

(** A prefix of the output that stops at a quote and does not contain the
    symbol was a prefix of the input. *)
Lemma prefix_unreplace (s x : str) :
  closed_by q x -> ~ occurs new x ->
  x `prefix_of` replace_go old new 0 s -> x `prefix_of` s.
Proof.
  revert x.
  apply (replace_go_ind old new (fun s out => forall x,
    closed_by q x -> ~ occurs new x -> x `prefix_of` out -> x `prefix_of` s));
    [done | | |].
  - intros x _ _ [k Hk]. symmetry in Hk.
    apply app_eq_nil in Hk as [-> _]. apply prefix_nil.
  - intros rest _ x [-> | [y ->]] Hn [k Hk]; [apply prefix_nil |].
    apply app_eq_app in Hk as [m [[H1 H2] | [H1 H2]]].
    + destruct new_quote_free. rewrite H1. set_solver.
    + destruct Hn. exists [], m. by rewrite H1.
  - intros c t _ IH [|c' x'] Hc Hn [k Hk]; [apply prefix_nil |].
    injection Hk as <- Hk. apply prefix_cons, IH.
    + by eapply closed_by_tail.
    + intros H. by apply Hn, occurs_cons.
    + by exists k.
Qed.

(** An occurrence of a quoted text in [new ++ R] lies in [R]. *)
Lemma occurs_past_symbol (p' R : str) :
  occurs (q :: p') (new ++ R) -> occurs (q :: p') R.
Proof.
  intros (l & r & H).
  apply app_eq_app in H as [m [[H1 H2] | [H1 H2]]].
  - destruct m as [|a m].
    + exists [], r. by rewrite H2.
    + injection H2 as -> _. destruct new_quote_free. rewrite H1. set_solver.
  - exists m, r. by rewrite H2.
Qed.

(** Replacing [old] by [new] creates no occurrence of a quoted text. *)
Lemma occurs_unreplace (p' s : str) :
  closed_by q p' -> ~ occurs new p' ->
  occurs (q :: p') (replace_go old new 0 s) -> occurs (q :: p') s.
Proof.
  intros Hc Hn.
  apply (replace_go_ind old new (fun s out =>
    occurs (q :: p') out -> occurs (q :: p') s)); [done | | |].
  - done.
  - intros rest IH H%occurs_past_symbol. by apply occurs_app_r, IH.
  - intros c t _ IH [H | H]%occurs_cons_inv.
    + apply startswith_spec in H as [k Hk]. injection Hk as -> Hk.
      apply occurs_here, startswith_spec.
      destruct (prefix_unreplace t p' Hc Hn) as [k' ->]; [by exists k |].
      by exists k'.
    + by apply occurs_cons, IH.
Qed.

End QuoteFreeSymbol.

(** After [replace] no occurrence of a quoted [old] is left. *)
Lemma replace_go_removes (q : char) (old' new s : str) :
  new <> [] -> q ∉ new -> closed_by q old' -> ~ occurs new old' ->
  ~ occurs (q :: old') (replace_go (q :: old') new 0 s).
Proof.
  intros Hne Hq Hc Hn.
  apply (replace_go_ind (q :: old') new (fun s out =>
    ~ occurs (q :: old') out)); [done | | |].
  - by intros ?%occurs_nil_inv.
  - intros rest IH H. by eapply IH, occurs_past_symbol.
  - intros c t Hmiss IH [H | H]%occurs_cons_inv; [| done].
    apply startswith_spec in H as [k Hk]. injection Hk as -> Hk.
    destruct (prefix_unreplace q (q :: old') new ltac:(done) Hne Hq t old' Hc Hn)
      as [k' ->]; [by exists k |].
    pose proof (startswith_app (q :: old') k') as E. cbn [app] in E.
    congruence.
Qed.

(** Where [old] occurred, [new] now does. *)
Lemma replace_go_adds (old new s : str) :
  old <> [] -> occurs old s -> occurs new (replace_go old new 0 s).
Proof.
  intros Hne.
  apply (replace_go_ind old new (fun s out => occurs old s -> occurs new out));
    [done | | |].
  - intros ?%occurs_nil_inv. done.
  - intros rest _ _. exists [], (replace_go old new 0 rest). done.
  - intros c t Hmiss IH [H | H]%occurs_cons_inv; [congruence |].
    by apply occurs_cons, IH.
Qed.

(** *** A quote-free text is not touched by the replacement of a quoted key *)

Lemma prefix_replace (q : char) (body new x s : str) :
  q ∉ x -> x `prefix_of` s -> x `prefix_of` replace_go (q :: body) new 0 s.
Proof.
  revert x.
  apply (replace_go_ind (q :: body) new (fun s out => forall x,
    q ∉ x -> x `prefix_of` s -> x `prefix_of` out)); [done | | |].
  - done.
  - intros rest _ [|c x'] Hq [k Hk]; [apply prefix_nil |].
    injection Hk as -> _. set_solver.
  - intros c t _ IH [|c' x'] Hq [k Hk]; [apply prefix_nil |].
    injection Hk as <- Hk. apply prefix_cons, IH; [set_solver | by exists k].
Qed.

Lemma suffix_closed (q : char) (y l m : str) :
  y ++ [q] = l ++ m -> m <> [] -> exists z, m = z ++ [q].
Proof.
  intros H Hm. destruct (exists_last Hm) as (z & e & ->). exists z.
  rewrite app_assoc in H. by apply app_inj_tail in H as [_ <-].
Qed.

Lemma occurs_replace (q : char) (body new x s : str) :
  q ∉ x -> (exists y, q :: body = y ++ [q]) -> ~ occurs x (q :: body) ->
  occurs x s -> occurs x (replace_go (q :: body) new 0 s).
Proof.
  intros Hq [y Hy] Hn.
  apply (replace_go_ind (q :: body) new (fun s out =>
    occurs x s -> occurs x out)); [done | | |].
  - done.
  - intros rest IH (l & r & H). apply occurs_app_r.
    apply app_eq_app in H as [m [[H1 H2] | [H1 H2]]].
    + (* the occurrence starts inside [old] *)
      symmetry in H2. apply app_eq_app in H2 as [m' [[H3 H4] | [H3 H4]]].
      * destruct Hn. exists l, m'. by rewrite H1, H3.
      * destruct (decide (m = [])) as [-> | Hm].
        { apply IH. exists [], r. simpl in H3. by rewrite H4, H3. }
        rewrite Hy in H1. destruct (suffix_closed q y l m H1 Hm) as [z ->].
        destruct Hq. rewrite H3. set_solver.
    + apply IH. exists m, r. by rewrite H2.
  - intros c t _ IH [H | H]%occurs_cons_inv; [| by apply occurs_cons, IH].
    destruct x as [|c' x'];
      [by exists [], (c :: replace_go (q :: body) new 0 t) |].
    apply startswith_spec in H as [k Hk]. injection Hk as <- Hk.
    apply occurs_here, startswith_spec.
    destruct (prefix_replace q body new x' t) as [k' ->];
      [set_solver | by exists k |]. by exists k'.
Qed.

End StrFacts.

(** ** Facts about the substitution loops *)

Module TableFacts.
Import PyStr Migrate Spec StrFacts.

Lemma key_ok_spec (q : char) (old : str) :
  key_ok q old = true ->
  exists body, old = q :: body /\ body <> [] /\ closed_by q body /\
               exists y, old = y ++ [q].
Proof.
  destruct old as [|c body]; [done |]. simpl.
  intros [->%N.eqb_eq H]%andb_true_iff. exists body.
  destruct (last body) as [z|] eqn:E; [| done].
  apply N.eqb_eq in H as ->. apply last_Some in E as [y ->].
  repeat split.
  - by destruct y.
  - right. by exists y.
  - by exists (q :: y).
Qed.

Lemma symbol_ok_spec (q : char) (new : str) :
  symbol_ok q new = true -> new <> [] /\ q ∉ new.
Proof.
  destruct new as [|c new]; [done |]. unfold symbol_ok.
  intros H. split; [done |]. rewrite forallb_forall in H.
  intros Hin%list_elem_of_In. apply H in Hin.
  by rewrite N.eqb_refl in Hin.
Qed.

Lemma table_ok_spec (q : char) (d : list (str * str)) :
  table_ok q d = true ->
  (forall o n, (o, n) ∈ d -> key_ok q o = true /\ symbol_ok q n = true) /\
  (forall o n o' n', (o, n) ∈ d -> (o', n') ∈ d -> ~ occurs n' o).
Proof.
  unfold table_ok. intros [H1 H2]%andb_true_iff.
  rewrite forallb_forall in H1. rewrite forallb_forall in H2. split.
  - intros o n Hin%list_elem_of_In. by apply H1, andb_true_iff in Hin.
  - intros o n o' n' Hin%list_elem_of_In Hin'%list_elem_of_In.
    apply H2 in Hin. rewrite forallb_forall in Hin. apply Hin in Hin'.
    simpl in Hin'. apply contains_false. by destruct (contains n' o).
Qed.

Lemma replace_nonempty (old new s : str) :
  old <> [] -> replace old new s = replace_go old new 0 s.
Proof. by destruct old. Qed.

Lemma replace_all_app (d1 d2 : list (str * str)) (s : str) :
  replace_all (d1 ++ d2) s = replace_all d2 (replace_all d1 s).
Proof.
  revert s. induction d1 as [|[o n] d1 IH]; intros s; simpl; [done | apply IH].
Qed.

Local Ltac member :=
  rewrite ?elem_of_app, ?elem_of_cons; auto.

(** A quoted text that is absent stays absent through the loop. *)
Lemma replace_all_keeps_absent (q : char) (d : list (str * str)) (p' s : str) :
  (forall o n, (o, n) ∈ d ->
     key_ok q o = true /\ symbol_ok q n = true /\ ~ occurs n (q :: p')) ->
  closed_by q p' ->
  ~ occurs (q :: p') s -> ~ occurs (q :: p') (replace_all d s).
Proof.
  intros Hd Hc. revert s.
  induction d as [|[o n] d IH]; intros s Hs; simpl; [done |].
  destruct (Hd o n) as (Ho & Hn & Hind); [member |].
  apply key_ok_spec in Ho as (body & -> & _).
  apply symbol_ok_spec in Hn as [Hne Hq].
  apply IH; [intros; apply Hd; member |].
  rewrite replace_nonempty by done. intros H. apply Hs.
  apply (occurs_unreplace q (q :: body) n) in H; try done.
  intros H'. by apply Hind, occurs_cons.
Qed.

(** A quote-free text that is present stays present through the loop. *)
Lemma replace_all_keeps_present (q : char) (d : list (str * str)) (x s : str) :
  (forall o n, (o, n) ∈ d -> key_ok q o = true /\ ~ occurs x o) ->
  q ∉ x ->
  occurs x s -> occurs x (replace_all d s).
Proof.
  intros Hd Hq. revert s.
  induction d as [|[o n] d IH]; intros s Hs; simpl; [done |].
  destruct (Hd o n) as (Ho & Hind); [member |].
  apply key_ok_spec in Ho as (body & -> & _ & _ & Hy).
  apply IH; [intros o' n' ?; apply (Hd o' n'); member |].
  rewrite replace_nonempty by done. by apply occurs_replace.
Qed.

(** After the loop over a well-formed table no key is left. *)
Lemma table_removes (q : char) (d : list (str * str)) (s old : str) :
  table_ok q d = true -> In old (keys d) -> ~ occurs old (replace_all d s).
Proof.
  intros [Hd Hind]%table_ok_spec Hin.
  apply in_map_iff in Hin as ([o new] & <- & Hin%list_elem_of_In). simpl.
  destruct (Hd o new Hin) as [Ho Hn].
  apply list_elem_of_split in Hin as (pre & post & ->).
  rewrite replace_all_app. simpl.
  apply key_ok_spec in Ho as (body & -> & _ & Hc & _).
  apply symbol_ok_spec in Hn as [Hne Hq].
  apply (replace_all_keeps_absent q); [| done |].
  - intros o n Hin. destruct (Hd o n) as [? ?]; [member |].
    repeat split; try done. apply (Hind (q :: body) new o n); member.
  - rewrite replace_nonempty by done.
    apply replace_go_removes; try done.
    intros H. apply (Hind (q :: body) new (q :: body) new); [member.. |].
    by apply occurs_cons.
Qed.

(** The symbol of a key that occurs when its turn comes is in the result. *)
Lemma table_adds (q : char) (pre post : list (str * str)) (old new s : str) :
  table_ok q (pre ++ (old, new) :: post) = true ->
  occurs old (replace_all pre s) ->
  occurs new (replace_all (pre ++ (old, new) :: post) s).
Proof.
  intros [Hd Hind]%table_ok_spec Hin.
  rewrite replace_all_app. simpl.
  destruct (Hd old new) as [Ho Hn]; [member |].
  apply symbol_ok_spec in Hn as [Hne Hq].
  apply (replace_all_keeps_present q); [| done |].
  - intros o n Ho'. destruct (Hd o n) as [? ?]; [member |].
    split; [done |]. apply (Hind o n old new); member.
  - apply key_ok_spec in Ho as (body & -> & _).
    rewrite replace_nonempty by done. by apply replace_go_adds.
Qed.

Lemma all_mappings_ok : table_ok quote ALL_MAPPINGS = true.
Proof. vm_compute. reflexivity. Qed.

End TableFacts.

(** ** Facts about the matcher and [re.sub] *)

Module ReFacts.
Import PyStr PyRe Migrate Spec StrFacts.

Lemma star_inv (cls : char -> bool) (k : str -> option str) (s r : str) :
  star cls k s = Some r ->
  exists ws s', s = ws ++ s' /\ forallb cls ws = true /\ k s' = Some r.
Proof.
  induction s as [|c t IH]; simpl.
  - intros H. by exists [], [].
  - destruct (cls c) eqn:Ec; [| intros H; by exists [], (c :: t)].
    destruct (star cls k t) as [r'|] eqn:Et.
    + intros [= ->]. destruct (IH eq_refl) as (ws & s' & -> & Hws & Hk).
      exists (c :: ws), s'. simpl. by rewrite Ec, Hws.
    + intros H. by exists [], (c :: t).
Qed.

(** The repetition takes every character of the class it is offered, as
    long as the rest of the pattern then succeeds. *)
Lemma star_greedy (cls : char -> bool) (k : str -> option str) (ws s r : str) :
  forallb cls ws = true -> star cls k s = Some r ->
  star cls k (ws ++ s) = Some r.
Proof.
  intros Hws Hs. induction ws as [|c ws IH]; simpl; [done |].
  simpl in Hws. apply andb_true_iff in Hws as [-> Hws]. by rewrite IH.
Qed.

Lemma star_stop (cls : char -> bool) (k : str -> option str) (c : char) (t : str) :
  cls c = false -> star cls k (c :: t) = k (c :: t).
Proof. intros H. simpl. by rewrite H. Qed.

Lemma re_match_lits (x : str) (r : regex) (s : str) :
  re_match (lits x ++ r) (x ++ s) = re_match r s.
Proof.
  induction x as [|c x IH]; simpl; [done |]. by rewrite N.eqb_refl.
Qed.

Lemma re_match_lit_inv (c : char) (r : regex) (s rest : str) :
  re_match (Lit c :: r) s = Some rest ->
  exists t, s = c :: t /\ re_match r t = Some rest.
Proof.
  destruct s as [|x t]; simpl; [done |].
  destruct (N.eqb_spec x c) as [-> |]; [| done]. intros H. by exists t.
Qed.

Lemma re_match_lits_inv (x : str) (r : regex) (s rest : str) :
  re_match (lits x ++ r) s = Some rest ->
  exists t, s = x ++ t /\ re_match r t = Some rest.
Proof.
  revert s. induction x as [|c x IH]; intros s H.
  - by exists s.
  - apply re_match_lit_inv in H as (t & -> & H).
    apply IH in H as (t' & -> & H). by exists t'.
Qed.

Lemma re_match_star_inv (cls : char -> bool) (r : regex) (s rest : str) :
  re_match (Star cls :: r) s = Some rest ->
  exists ws t, s = ws ++ t /\ forallb cls ws = true /\
               re_match r t = Some rest.
Proof. apply star_inv. Qed.

Lemma re_match_plus_inv (cls : char -> bool) (r : regex) (s rest : str) :
  re_match (Plus cls :: r) s = Some rest ->
  exists ws t, s = ws ++ t /\ ws <> [] /\ forallb cls ws = true /\
               re_match r t = Some rest.
Proof.
  destruct s as [|c s]; simpl; [done |].
  destruct (cls c) eqn:Ec; [| done].
  intros (ws & t & -> & Hws & H)%star_inv.
  exists (c :: ws), t. simpl. by rewrite Ec, Hws.
Qed.

Lemma forallb_not_brace (syms : str) :
  forallb (fun c => negb (N.eqb c 125)) syms = true <-> 125%N ∉ syms.
Proof.
  rewrite forallb_forall. split.
  - intros H Hin%list_elem_of_In. apply H in Hin. by rewrite N.eqb_refl in Hin.
  - intros H c Hin%list_elem_of_In.
    destruct (N.eqb_spec c 125) as [-> |]; done.
Qed.

(** What [import_re] matches at the start of a text is a braced import
    clause. *)
Lemma import_re_sound (s rest : str) :
  re_match import_re s = Some rest ->
  exists ws1 syms ws2 ws3,
    clause_ok ws1 syms ws2 ws3 /\ s = import_clause ws1 syms ws2 ws3 ++ rest.
Proof.
  unfold import_re. intros H.
  apply re_match_lits_inv in H as (t1 & -> & H). cbn [app] in H.
  apply re_match_star_inv in H as (ws1 & t2 & -> & Hws1 & H).
  apply re_match_lit_inv in H as (t3 & -> & H).
  apply re_match_plus_inv in H as (syms & t4 & -> & Hne & Hsyms & H).
  apply re_match_lit_inv in H as (t5 & -> & H).
  apply re_match_star_inv in H as (ws2 & t6 & -> & Hws2 & H).
  apply re_match_lits_inv in H as (t7 & -> & H). cbn [app] in H.
  apply re_match_star_inv in H as (ws3 & t8 & -> & Hws3 & H).
  rewrite <- (app_nil_r (lits _)) in H.
  apply re_match_lits_inv in H as (t9 & -> & [= ->]).
  exists ws1, syms, ws2, ws3. split.
  - by repeat split.
  - unfold import_clause. by rewrite <- !app_assoc.
Qed.

(** A repetition followed by a text whose first character is outside the
    class takes exactly the characters before it. *)
Lemma star_then (cls : char -> bool) (k : str -> option str) (ws x t r : str) :
  forallb cls ws = true ->
  match x with c :: _ => cls c | [] => true end = false ->
  k (x ++ t) = Some r ->
  star cls k (ws ++ x ++ t) = Some r.
Proof.
  intros Hws Hx Hk. apply star_greedy; [done |].
  destruct x as [|c x]; [done |]. cbn [app] in *. by rewrite star_stop.
Qed.

(** A braced import clause at the start of a text is matched, and the match
    ends where the clause ends. *)
Lemma import_re_complete (ws1 syms ws2 ws3 rest : str) :
  clause_ok ws1 syms ws2 ws3 ->
  re_match import_re (import_clause ws1 syms ws2 ws3 ++ rest) = Some rest.
Proof.
  intros (Hws1 & Hne & Hsyms & Hws2 & Hws3).
  unfold import_re, import_clause. rewrite <- !app_assoc.
  rewrite re_match_lits. cbn [app re_match].
  apply (star_then _ _ ws1 [123%N]); [done.. |].
  cbn [app re_match]. rewrite N.eqb_refl.
  destruct syms as [|c syms]; [done |]. cbn [app].
  simpl in Hsyms. apply andb_true_iff in Hsyms as [-> Hsyms].
  apply (star_then _ _ syms [125%N]); [done.. |].
  cbn [app re_match]. rewrite N.eqb_refl.
  apply (star_then _ _ ws2 (py "from")); [done.. |].
  rewrite re_match_lits. cbn [app re_match].
  apply (star_then _ _ ws3 (py "'@intexuraos/llm-contract';")); [done.. |].
  rewrite <- (app_nil_r (lits _)). by rewrite re_match_lits.
Qed.

(** *** The scanning loop of [re.sub] *)

Lemma sub_go_skip (r : regex) (repl x rest : str) :
  sub_go r repl (length x) (x ++ rest) = sub_go r repl 0 rest.
Proof.
  induction x as [|c x IH]; simpl; [| apply IH]. by destruct rest.
Qed.

Lemma sub_go_hit (r : regex) (repl m rest : str) :
  m <> [] -> re_match r (m ++ rest) = Some rest ->
  sub_go r repl 0 (m ++ rest) = repl ++ sub_go r repl 0 rest.
Proof.
  intros Hm H. destruct m as [|c m]; [done |]. cbn [app] in *.
  cbn [sub_go]. rewrite H.
  replace (length (c :: m ++ rest) - length rest) with (S (length m))
    by (cbn [length]; rewrite length_app; lia).
  f_equal. apply sub_go_skip.
Qed.

Lemma sub_go_miss (r : regex) (repl : str) (c : char) (t : str) :
  re_match r (c :: t) = None ->
  sub_go r repl 0 (c :: t) = c :: sub_go r repl 0 t.
Proof. intros H. cbn [sub_go]. by rewrite H. Qed.

Lemma sub_go_before (r : regex) (repl pre tail : str) :
  no_match_in r pre tail = true ->
  sub_go r repl 0 (pre ++ tail) = pre ++ sub_go r repl 0 tail.
Proof.
  induction pre as [|c pre IH]; [done |]. cbn [no_match_in].
  destruct (re_match r ((c :: pre) ++ tail)) eqn:E; [done |].
  intros H. cbn [app] in *. rewrite sub_go_miss by done. by rewrite IH.
Qed.

(** Where the pattern matches nowhere, [re.sub] returns its input. *)
Lemma re_sub_not_found (r : regex) (repl s : str) :
  re_found r s = false -> re_sub r repl s = s.
Proof.
  unfold re_sub. induction s as [|c t IH]; cbn [re_found sub_go].
  - by destruct (re_match r []).
  - destruct (re_match r (c :: t)); [done |]. intros H. by rewrite IH.
Qed.

(** The pattern is found exactly where a braced import clause occurs. *)
Lemma import_re_found (s : str) :
  re_found import_re s = true <->
  exists ws1 syms ws2 ws3,
    clause_ok ws1 syms ws2 ws3 /\ occurs (import_clause ws1 syms ws2 ws3) s.
Proof.
  split.
  - induction s as [|c t IH]; cbn [re_found].
    + destruct (re_match import_re []) eqn:E; [| done]. intros _.
      apply import_re_sound in E as (ws1 & syms & ws2 & ws3 & Hok & E).
      exists ws1, syms, ws2, ws3. split; [done |]. exists [], l.
      by rewrite E.
    + destruct (re_match import_re (c :: t)) eqn:E.
      * intros _.
        apply import_re_sound in E as (ws1 & syms & ws2 & ws3 & Hok & E).
        exists ws1, syms, ws2, ws3. split; [done |]. exists [], l.
        by rewrite E.
      * intros (ws1 & syms & ws2 & ws3 & Hok & H)%IH.
        exists ws1, syms, ws2, ws3. split; [done | by apply occurs_cons].
  - intros (ws1 & syms & ws2 & ws3 & Hok & l & r & ->).
    induction l as [|c l IH]; cbn [app].
    + pose proof (import_re_complete ws1 syms ws2 ws3 r Hok) as E.
      destruct (import_clause ws1 syms ws2 ws3 ++ r);
        cbn [re_found]; by rewrite E.
    + cbn [re_found]. by destruct (re_match import_re _).
Qed.

End ReFacts.

(** ** Facts about lines *)

Module LineFacts.
Import PyStr Migrate Spec.

Lemma split_nonempty (sep : char) (s : str) : split sep s <> [].
Proof.
  induction s as [|c t IH]; simpl; [done |].
  destruct (N.eqb c sep); [done |]. by destruct (split sep t).
Qed.

Lemma join_cons (sep l : str) (ls : list str) :
  ls <> [] -> join sep (l :: ls) = l ++ sep ++ join sep ls.
Proof. by destruct ls. Qed.

(** Splitting at a character and joining with it gives the text back. *)
Lemma join_split (sep : char) (s : str) : join [sep] (split sep s) = s.
Proof.
  induction s as [|c t IH]; [done |]. cbn [split].
  destruct (N.eqb_spec c sep) as [-> | Hne].
  - rewrite join_cons by apply split_nonempty. simpl. by rewrite IH.
  - pose proof (split_nonempty sep t) as Hs.
    destruct (split sep t) as [|l ls]; [done |].
    destruct ls as [|l' ls]; simpl in *; by rewrite <- IH.
Qed.

Lemma split_no_sep (sep : char) (s l : str) :
  l ∈ split sep s -> sep ∉ l.
Proof.
  revert l. induction s as [|c t IH]; intros l; cbn [split].
  - intros ->%list_elem_of_singleton. apply not_elem_of_nil.
  - destruct (N.eqb_spec c sep) as [-> | Hne].
    + intros [-> | H]%elem_of_cons; [apply not_elem_of_nil | by apply IH].
    + pose proof (split_nonempty sep t) as Hs.
      destruct (split sep t) as [|l0 ls]; [done |].
      intros [-> | H]%elem_of_cons.
      * intros [? | H]%elem_of_cons; [done |].
        by apply (IH l0); [apply list_elem_of_here |].
      * apply IH. by apply list_elem_of_further.
Qed.

Lemma split_line (sep : char) (l : str) : sep ∉ l -> split sep l = [l].
Proof.
  induction l as [|c l IH]; [done |]. intros H. cbn [split].
  destruct (N.eqb_spec c sep) as [-> | Hne];
    [destruct H; apply list_elem_of_here |].
  rewrite IH; [done |]. intros ?. apply H. by apply list_elem_of_further.
Qed.

Lemma split_line_app (sep : char) (l rest : str) :
  sep ∉ l -> split sep (l ++ sep :: rest) = l :: split sep rest.
Proof.
  induction l as [|c l IH]; intros H; cbn [app split].
  - by rewrite N.eqb_refl.
  - destruct (N.eqb_spec c sep) as [-> | Hne];
      [destruct H; apply list_elem_of_here |].
    rewrite IH; [done |]. intros ?. apply H. by apply list_elem_of_further.
Qed.

(** Joining lines that are free of the separator and splitting again gives
    the lines back. *)
Lemma split_join (sep : char) (ls : list str) :
  ls <> [] -> (forall l, l ∈ ls -> sep ∉ l) ->
  split sep (join [sep] ls) = ls.
Proof.
  induction ls as [|l ls IH]; [done |]. intros _ H.
  destruct ls as [|l' ls].
  - apply split_line, H, list_elem_of_here.
  - rewrite join_cons by done. cbn [app].
    rewrite split_line_app by apply H, list_elem_of_here.
    f_equal. apply IH; [done |]. intros l0 Hl0. by apply H, list_elem_of_further.
Qed.

Lemma first_import_line_found (i : nat) (before : list str) (line : str)
    (after : list str) :
  forallb (fun l => negb (is_import_line l)) before = true ->
  is_import_line line = true ->
  first_import_line i (before ++ line :: after) = Some (i + length before).
Proof.
  revert i. induction before as [|l before IH]; intros i Hb Hl; simpl.
  - rewrite Hl. f_equal. lia.
  - simpl in Hb. apply andb_true_iff in Hb as [Hl0 Hb].
    destruct (is_import_line l); [done |]. rewrite IH by done. f_equal. lia.
Qed.

Lemma first_import_line_none (i : nat) (lines : list str) :
  forallb (fun l => negb (is_import_line l)) lines = true ->
  first_import_line i lines = None.
Proof.
  revert i. induction lines as [|l lines IH]; intros i H; simpl; [done |].
  simpl in H. apply andb_true_iff in H as [Hl H].
  destruct (is_import_line l); [done | by apply IH].
Qed.

Lemma list_insert_after {A : Type} (before : list A) (line x : A)
    (after : list A) :
  list_insert_at (length before + 1) x (before ++ line :: after) =
  before ++ line :: x :: after.
Proof.
  unfold list_insert_at.
  replace (length before + 1) with (length (before ++ [line]))
    by (rewrite length_app; simpl; lia).
  replace (before ++ line :: after) with ((before ++ [line]) ++ after)
    by (by rewrite <- app_assoc).
  rewrite take_app_length, drop_app_length. by rewrite <- app_assoc.
Qed.

End LineFacts.

(** ** Facts about [migrate_file] and the loops *)

Module RunFacts.
Import PyStr Migrate World Script Spec.

(** The ways a call of [migrate_file] can go. *)
Lemma migrate_file_cases (path : str) (w : world) :
  migrate_file path w =
  match names w !! path with
  | None => (add_err (error_line path (enoent w path)) w, Return false)
  | Some i =>
      match fs w !! i with
      | None => (add_err (error_line path (enoent w path)) w, Return false)
      | Some f =>
          match f_data f with
          | inr e => (add_err (error_line path e) w, Return false)
          | inl content =>
              if needs_migration content then
                match out_fault w (migrating_line path) with
                | Some e => (add_err (error_line path e) w, Return false)
                | None =>
                    match f_locked f with
                    | Some e =>
                        (add_err (error_line path e)
                           (add_out (migrating_line path) w), Return false)
                    | None =>
                        (set_fs
                           (<[i := File (inl (rewrite content)) None]> (fs w))
                           (add_out (migrating_line path) w), Return true)
                    end
                end
              else (w, Return false)
          end
      end
  end.
Proof.
  unfold migrate_file, try_except, migrate_file_try, migrate_file_except,
    bind, read_text, file_of.
  destruct (names w !! path) as [i|] eqn:En; [| done].
  destruct (fs w !! i) as [f|] eqn:Ef; [| done].
  destruct (f_data f) as [content | e]; [| done].
  destruct (needs_migration content); [| done]. cbn [negb].
  unfold print, migrating_line.
  destruct (out_fault w (py "Migrating: " ++ path)); [done |].
  unfold write_text. cbn [names fs]. rewrite En, Ef.
  by destruct (f_locked f).
Qed.

(** Case analysis along [migrate_file_cases]. *)
Ltac file_cases path w :=
  let i := fresh "i" in
  let f := fresh "f" in
  let c := fresh "c" in
  let e := fresh "e" in
  unfold file_of in *;
  destruct (names w !! path) as [i|] eqn:?;
  [ destruct (fs w !! i) as [f|] eqn:?;
    [ destruct (f_data f) as [c | e] eqn:?;
      [ destruct (needs_migration c) eqn:?;
        [ destruct (out_fault w (migrating_line path)) eqn:?;
          [ | destruct (f_locked f) eqn:? ]
        | ]
      | ]
    | ]
  | ].

Lemma surjective_run {A : Type} (m : M A) (w : world) :
  m w = (exec m w, result m w).
Proof. unfold exec, result. by destruct (m w). Qed.

Lemma migrate_file_result (path : str) (w : world) :
  result (migrate_file path) w = Return (migratable path w).
Proof.
  unfold result, migratable, eligible, printable, writable, readable_text.
  rewrite migrate_file_cases. file_cases path w; done.
Qed.

Lemma migrate_each_app (xs ys : list str) (n : nat) (w : world) :
  migrate_each (xs ++ ys) n w =
  match migrate_each xs n w with
  | (w1, Return n1) => migrate_each ys n1 w1
  | (w1, Raise e) => (w1, Raise e)
  end.
Proof.
  revert n w. induction xs as [|p xs IH]; intros n w; [done |].
  cbn [app migrate_each]. unfold bind.
  destruct (migrate_file p w) as [w1 [b | e]]; [apply IH | done].
Qed.

(** [per_file] is what a run makes of a file that can be read and written,
    when the progress line can be printed. *)
Lemma migrate_file_per_file (path content : str) (w : world) :
  file_of path w = Some (File (inl content) None) ->
  out_fault w (migrating_line path) = None ->
  file_of path (exec (migrate_file path) w) =
  Some (File (inl (per_file content)) None).
Proof.
  intros Hf Ho. unfold exec, per_file. rewrite migrate_file_cases.
  unfold file_of in *.
  destruct (names w !! path) as [i|] eqn:En; [| done]. rewrite Hf.
  cbn [f_data f_locked]. rewrite Ho.
  destruct (needs_migration content); cbn [fst names fs set_fs add_out].
  - rewrite En. apply lookup_insert_eq.
  - by rewrite En.
Qed.

Lemma migrate_file_out (path : str) (w : world) :
  out (exec (migrate_file path) w) =
  out w ++ (if announced path w then [migrating_line path] else []).
Proof.
  unfold exec, announced, eligible, printable, readable_text.
  rewrite migrate_file_cases.
  file_cases path w; cbn [fst out add_err add_out set_fs andb];
    by rewrite ?app_nil_r.
Qed.

(** An exception in the [try] block ends in the [except] block. *)
Lemma migrate_file_caught (path : str) (w w' : world) (e : str) :
  migrate_file_try path w = (w', Raise e) ->
  migrate_file path w = (add_err (error_line path e) w', Return false).
Proof. unfold migrate_file, try_except. by intros ->. Qed.

(** The counter grows by one for each file that is migrated. *)
Lemma migrate_each_count (files : list str) (n : nat) (w : world) :
  result (migrate_each files n) w = Return (n + successes files w).
Proof.
  revert n w. induction files as [|p files IH]; intros n w.
  - unfold result. cbn. f_equal. lia.
  - unfold result in *. cbn [migrate_each successes]. unfold bind.
    rewrite (surjective_run (migrate_file p) w), migrate_file_result.
    rewrite IH. f_equal. destruct (migratable p w); lia.
Qed.

End RunFacts.

(** ** Facts about the pure functions of the script *)

Module MigrateFacts.
Import PyStr PyRe Migrate Spec StrFacts TableFacts ReFacts LineFacts.

Lemma any_in_spec (patterns : list str) (content : str) :
  any_in patterns content = true <->
  exists p, In p patterns /\ occurs p content.
Proof.
  induction patterns as [|p ps IH]; simpl.
  - split; [done | by intros (p & [] & _)].
  - destruct (contains p content) eqn:E.
    + split; [| done]. intros _. exists p. split; [by left |].
      by apply contains_spec.
    + rewrite IH. split.
      * intros (p' & Hin & Ho). exists p'. split; [by right | done].
      * intros (p' & [<- | Hin] & Ho); [| by exists p'].
        apply contains_false in E. done.
Qed.

Lemma keys_all :
  keys MODEL_MAPPINGS ++ keys PROVIDER_MAPPINGS = keys ALL_MAPPINGS.
Proof. unfold keys, ALL_MAPPINGS. by rewrite List.map_app. Qed.

Lemma rewrite_all (content : str) :
  rewrite content = replace_all ALL_MAPPINGS (add_import_if_needed content).
Proof. unfold rewrite, ALL_MAPPINGS. by rewrite replace_all_app. Qed.

(** No key of either table is left in the text that is written back. *)
Lemma rewrite_clean (content old : str) :
  In old (keys ALL_MAPPINGS) -> contains old (rewrite content) = false.
Proof.
  intros Hin. rewrite rewrite_all. apply contains_false.
  by apply (table_removes quote), Hin; [apply all_mappings_ok].
Qed.

Lemma needs_migration_rewrite (content : str) :
  needs_migration (rewrite content) = false.
Proof.
  destruct (needs_migration (rewrite content)) eqn:E; [| done].
  apply any_in_spec in E as (p & Hin & Ho). rewrite keys_all in Hin.
  apply (rewrite_clean content) in Hin. by apply contains_false in Hin.
Qed.

Lemma add_import_both (content : str) :
  has_both content = true -> add_import_if_needed content = content.
Proof. unfold has_both, add_import_if_needed. by intros ->. Qed.

Lemma add_import_from (content : str) :
  has_both content = false -> contains from_path content = true ->
  add_import_if_needed content = re_sub import_re import_statement content.
Proof.
  unfold has_both, from_path, add_import_if_needed. by intros -> ->.
Qed.

Lemma add_import_lines (content : str) :
  has_both content = false -> contains from_path content = false ->
  add_import_if_needed content =
  match first_import_line 0 (split 10 content) with
  | Some i =>
      join [10%N] (list_insert_at (i + 1) import_statement (split 10 content))
  | None => content
  end.
Proof.
  unfold has_both, from_path, add_import_if_needed. by intros -> ->.
Qed.

End MigrateFacts.

(** ** Further facts about the driver *)

Module DriverFacts.
Import PyStr Migrate World Script Spec RunFacts.

(** A call of [migrate_file] changes neither what the paths name, nor what
    is discovered, nor how the streams and missing files behave. *)
Lemma migrate_file_static (path : str) (w : world) :
  names (exec (migrate_file path) w) = names w /\
  tree (exec (migrate_file path) w) = tree w /\
  enoent (exec (migrate_file path) w) = enoent w /\
  out_fault (exec (migrate_file path) w) = out_fault w.
Proof.
  unfold exec. rewrite migrate_file_cases. file_cases path w; done.
Qed.

(** Only the file that the path names can change. *)
Lemma migrate_file_fs_other (path : str) (j : positive) (w : world) :
  names w !! path <> Some j ->
  fs (exec (migrate_file path) w) !! j = fs w !! j.
Proof.
  intros Hne. unfold exec. rewrite migrate_file_cases.
  file_cases path w; try done.
  cbn [fst fs set_fs add_out]. apply lookup_insert_ne. congruence.
Qed.

Lemma migrate_file_err (path : str) (w : world) :
  err (exec (migrate_file path) w) =
  err w ++ match failure path w with
           | Some e => [error_line path e]
           | None => []
           end.
Proof.
  unfold exec, failure. rewrite migrate_file_cases.
  file_cases path w; cbn [fst err add_err add_out set_fs];
    by rewrite ?app_nil_r.
Qed.

Lemma migratable_failure (path : str) (w : world) :
  migratable path w =
  eligible path w && match failure path w with Some _ => false | None => true end.
Proof.
  unfold migratable, eligible, printable, writable, readable_text, failure.
  file_cases path w; done.
Qed.

(** The step of the loop, with the world and the result of the call named. *)
Lemma migrate_each_cons (path : str) (files : list str) (n : nat) (w : world) :
  migrate_each (path :: files) n w =
  migrate_each files (if migratable path w then n + 1 else n)
    (exec (migrate_file path) w).
Proof.
  cbn [migrate_each]. unfold bind.
  by rewrite (surjective_run (migrate_file path) w), migrate_file_result.
Qed.

Lemma exec_migrate_each_cons (path : str) (files : list str) (n : nat)
    (w : world) :
  exec (migrate_each (path :: files) n) w =
  exec (migrate_each files (if migratable path w then n + 1 else n))
    (exec (migrate_file path) w).
Proof. unfold exec at 1 2. by rewrite migrate_each_cons. Qed.

(** The world a loop leaves does not depend on where its counter starts. *)
Lemma exec_migrate_each_counter (files : list str) (n m : nat) (w : world) :
  exec (migrate_each files n) w = exec (migrate_each files m) w.
Proof.
  revert n m w. induction files as [|p files IH]; intros n m w; [done |].
  rewrite !exec_migrate_each_cons. apply IH.
Qed.

Lemma exec_migrate_each_app (xs ys : list str) (n m : nat) (w : world) :
  exec (migrate_each (xs ++ ys) n) w =
  exec (migrate_each ys m) (exec (migrate_each xs n) w).
Proof.
  pose proof (exec_migrate_each_counter ys) as Hc.
  pose proof (migrate_each_count xs n w) as H.
  unfold exec, result in *. rewrite migrate_each_app.
  destruct (migrate_each xs n w) as [w1 r]. cbn [fst snd] in *. subst r.
  apply Hc.
Qed.

Lemma successes_app (xs ys : list str) (w : world) :
  successes (xs ++ ys) w =
  successes xs w + successes ys (exec (migrate_each xs 0) w).
Proof.
  revert w. induction xs as [|p xs IH]; intros w; [done |].
  cbn [app successes]. rewrite IH, exec_migrate_each_cons.
  rewrite (exec_migrate_each_counter xs (if migratable p w then 0 + 1 else 0) 0).
  lia.
Qed.

Lemma migrate_each_static (files : list str) (n : nat) (w : world) :
  names (exec (migrate_each files n) w) = names w /\
  tree (exec (migrate_each files n) w) = tree w /\
  enoent (exec (migrate_each files n) w) = enoent w /\
  out_fault (exec (migrate_each files n) w) = out_fault w.
Proof.
  revert n w. induction files as [|p files IH]; intros n w; [done |].
  rewrite exec_migrate_each_cons.
  destruct (IH (if migratable p w then n + 1 else n)
              (exec (migrate_file p) w)) as (-> & -> & -> & ->).
  apply migrate_file_static.
Qed.

Lemma migrate_each_fs_other (files : list str) (j : positive) (n : nat)
    (w : world) :
  (forall p, p ∈ files -> names w !! p <> Some j) ->
  fs (exec (migrate_each files n) w) !! j = fs w !! j.
Proof.
  revert n w. induction files as [|p files IH]; intros n w Hno; [done |].
  rewrite exec_migrate_each_cons, IH.
  - apply migrate_file_fs_other, Hno, list_elem_of_here.
  - intros p' Hp'. destruct (migrate_file_static p w) as [-> _].
    by apply Hno, list_elem_of_further.
Qed.

Lemma migrate_each_streams (files : list str) (n : nat) (w : world) :
  out w `prefix_of` out (exec (migrate_each files n) w) /\
  err w `prefix_of` err (exec (migrate_each files n) w).
Proof.
  revert n w. induction files as [|p files IH]; intros n w; [done |].
  rewrite exec_migrate_each_cons.
  destruct (IH (if migratable p w then n + 1 else n)
              (exec (migrate_file p) w)) as [Ho He].
  split.
  - etrans; [| exact Ho]. rewrite migrate_file_out. by eexists.
  - etrans; [| exact He]. rewrite migrate_file_err. by eexists.
Qed.

(** One turn of the outer loop. *)
Lemma each_base_cons (base : str) (more : list str) (n : nat) (w : world) :
  each_base (base :: more) n w =
  match base_fault base w with
  | Some e => (exec (migrate_each (base_files base w) n) w, Raise e)
  | None =>
      each_base more (n + successes (base_files base w) w)
        (exec (migrate_each (base_files base w) n) w)
  end.
Proof.
  cbn [each_base]. unfold base_fault, base_files.
  destruct (tree w !! base) as [[e | files fault]|].
  - done.
  - unfold bind.
    rewrite (surjective_run (migrate_each files n) w), migrate_each_count.
    by destruct fault.
  - cbn [successes]. by rewrite Nat.add_0_r.
Qed.

(** [main] is the loop over the discovered files; it ends with the
    exception of the discovery, or with the one of the last [print], or
    with the summary line. *)
Lemma main_unfold (w : world) :
  main w =
  match discovery_fault w with
  | Some e => (exec (migrate_each (discovered w) 0) w, Raise e)
  | None =>
      match out_fault w (summary (successes (discovered w) w)) with
      | Some e => (exec (migrate_each (discovered w) 0) w, Raise e)
      | None =>
          (add_out (summary (successes (discovered w) w))
             (exec (migrate_each (discovered w) 0) w), Return tt)
      end
  end.
Proof.
  unfold main, bind, discovered, discovery_fault.
  rewrite each_base_cons.
  destruct (base_fault (py "apps") w) as [e|] eqn:Ea.
  { by rewrite app_nil_r. }
  set (fa := base_files (py "apps") w).
  set (wa := exec (migrate_each fa 0) w).
  destruct (migrate_each_static fa 0 w) as (_ & Ht & _ & Ho).
  fold wa in Ht, Ho.
  assert (base_fault (py "packages") wa = base_fault (py "packages") w) as Ef
    by (unfold base_fault; by rewrite Ht).
  assert (base_files (py "packages") wa = base_files (py "packages") w) as El
    by (unfold base_files; by rewrite Ht).
  rewrite each_base_cons, Ef, El. cbn [Nat.add].
  set (fp := base_files (py "packages") w).
  rewrite (exec_migrate_each_app fa fp 0 (successes fa w)).
  fold wa. rewrite successes_app. fold wa.
  destruct (base_fault (py "packages") w) as [e|]; [done |].
  cbn [each_base]. unfold ret. cbv beta iota. unfold print.
  destruct (migrate_each_static fp (successes fa w) wa) as (_ & _ & _ & Ho').
  rewrite Ho in Ho'. rewrite <- Ho'.
  by destruct (out_fault _ (summary (successes fa w + successes fp wa))).
Qed.

Lemma exec_main_static (w : world) :
  names (exec main w) = names w /\
  fs (exec main w) = fs (exec (migrate_each (discovered w) 0) w) /\
  tree (exec main w) = tree w /\
  out_fault (exec main w) = out_fault w.
Proof.
  destruct (migrate_each_static (discovered w) 0 w) as (Hn & Ht & _ & Ho).
  assert (exec main w = exec (migrate_each (discovered w) 0) w \/
          exists line,
            exec main w =
            add_out line (exec (migrate_each (discovered w) 0) w)) as H.
  { change (exec main w) with (fst (main w)). rewrite main_unfold.
    destruct (discovery_fault w); [by left |].
    destruct (out_fault w (summary (successes (discovered w) w)));
      [by left | right; by eexists]. }
  destruct H as [-> | [line ->]]; done.
Qed.

(** Whether a file would be migrated depends on what its path names, on
    that file, and on whether its progress line can be printed. *)
Lemma migratable_ext (path : str) (w v : world) :
  names v = names w -> fs v = fs w -> out_fault v = out_fault w ->
  migratable path v = migratable path w.
Proof.
  intros En Ef Eo.
  unfold migratable, eligible, printable, writable, readable_text, file_of.
  by rewrite En, Ef, Eo.
Qed.

(** A file that would not be migrated stays so, whatever file is run; and
    the file that is run is not migrated a second time. *)
Lemma migratable_stays (path other : str) (w : world) :
  other = path \/ migratable other w = false ->
  migratable other (exec (migrate_file path) w) = false.
Proof.
  intros H.
  destruct (migratable path w) eqn:Hp.
  - (* the file is rewritten *)
    unfold exec. rewrite migrate_file_cases.
    unfold migratable, eligible, printable, writable, readable_text in Hp.
    file_cases path w; try done. cbn [fst].
    unfold migratable, eligible, printable, writable, readable_text, file_of.
    cbn [names fs out_fault set_fs add_out].
    destruct (names w !! other) as [j|] eqn:Ej; [| done].
    destruct (decide (j = i)) as [-> | Hne].
    + rewrite !lookup_insert_eq. cbn [f_data].
      by rewrite MigrateFacts.needs_migration_rewrite.
    + rewrite !lookup_insert_ne by done.
      destruct H as [-> | H]; [congruence |].
      unfold migratable, eligible, printable, writable, readable_text,
        file_of in H.
      rewrite Ej in H. exact H.
  - (* nothing is written *)
    assert (migratable other w = false) as Ho by (by destruct H as [-> | H]).
    rewrite <- Ho. apply migratable_ext.
    + apply migrate_file_static.
    + clear H Ho. revert Hp.
      unfold migratable, eligible, printable, writable, readable_text, exec.
      rewrite migrate_file_cases. file_cases path w; done.
    + apply migrate_file_static.
Qed.

Lemma unmigratable_fs (path : str) (w : world) :
  migratable path w = false -> fs (exec (migrate_file path) w) = fs w.
Proof.
  unfold migratable, eligible, printable, writable, readable_text, exec.
  rewrite migrate_file_cases. file_cases path w; done.
Qed.

Lemma migrate_each_settles (files : list str) (other : str) (n : nat)
    (w : world) :
  other ∈ files \/ migratable other w = false ->
  migratable other (exec (migrate_each files n) w) = false.
Proof.
  revert n w. induction files as [|p files IH]; intros n w H.
  - destruct H as [H%elem_of_nil | H]; done.
  - rewrite exec_migrate_each_cons. apply IH.
    destruct H as [[-> | H]%elem_of_cons | H]; [right | by left | right].
    + apply migratable_stays. by left.
    + apply migratable_stays. by right.
Qed.

Lemma migrate_each_settled (files : list str) (n : nat) (w : world) :
  (forall p, p ∈ files -> migratable p w = false) ->
  fs (exec (migrate_each files n) w) = fs w /\ successes files w = 0.
Proof.
  revert n w. induction files as [|p files IH]; intros n w H; [done |].
  assert (migratable p w = false) as Hp by apply H, list_elem_of_here.
  rewrite exec_migrate_each_cons. cbn [successes]. rewrite Hp.
  destruct (IH n (exec (migrate_file p) w)) as [Hfs Hs].
  - intros q Hq. apply migratable_stays. right.
    by apply H, list_elem_of_further.
  - split; [| by rewrite Hs]. by rewrite Hfs, unmigratable_fs.
Qed.

End DriverFacts.

(** ** Further facts about the import-ensuring step and the loops *)

Module StepFacts.
Import PyStr PyRe Migrate Spec StrFacts TableFacts ReFacts LineFacts
  MigrateFacts.

Lemma occurs_refl (s : str) : occurs s s.
Proof. exists [], []. by rewrite app_nil_r. Qed.

Lemma occurs_trans (a b c : str) : occurs a b -> occurs b c -> occurs a c.
Proof.
  intros (l & r & ->) (l' & r' & ->). exists (l' ++ l), (r ++ r').
  by rewrite <- !app_assoc.
Qed.

(** Where the pattern is found, the replacement is in the output. *)
Lemma sub_go_found (r : regex) (repl s : str) :
  re_found r s = true -> occurs repl (sub_go r repl 0 s).
Proof.
  induction s as [|c t IH]; cbn [re_found sub_go].
  - destruct (re_match r []); [intros _; apply occurs_refl | done].
  - destruct (re_match r (c :: t)) as [rest|].
    + intros _. destruct (length (c :: t) - length rest);
        apply occurs_app_l, occurs_refl.
    + intros H. by apply occurs_cons, IH.
Qed.

Lemma occurs_join (sep l : str) (ls : list str) :
  l ∈ ls -> occurs l (join sep ls).
Proof.
  induction ls as [|l0 ls IH]; [by intros ?%elem_of_nil |].
  intros [-> | H]%elem_of_cons.
  - destruct ls; [apply occurs_refl |]. apply occurs_app_l, occurs_refl.
  - destruct ls as [|l1 ls]; [by apply elem_of_nil in H |].
    rewrite join_cons by done. by apply occurs_app_r, occurs_app_r, IH.
Qed.

Lemma elem_of_list_insert_at {A : Type} (i : nat) (x : A) (l : list A) :
  x ∈ list_insert_at i x l.
Proof.
  unfold list_insert_at. apply elem_of_app. right. apply list_elem_of_here.
Qed.

Lemma has_both_import (s : str) :
  occurs import_statement s -> has_both s = true.
Proof.
  intros H. unfold has_both. apply andb_true_iff.
  split; apply contains_spec; (eapply occurs_trans; [| exact H]);
    apply contains_spec; vm_compute; reflexivity.
Qed.

(** The step leaves the text as it is or puts the import statement in. *)
Lemma add_import_outcome (content : str) :
  add_import_if_needed content = content \/
  occurs import_statement (add_import_if_needed content).
Proof.
  destruct (has_both content) eqn:Hb; [left; by apply add_import_both |].
  destruct (contains from_path content) eqn:Hf.
  - rewrite add_import_from by done.
    destruct (re_found import_re content) eqn:Hr.
    + right. by apply sub_go_found.
    + left. by apply re_sub_not_found.
  - rewrite add_import_lines by done.
    destruct (first_import_line 0 (split 10 content)) as [i|]; [| by left].
    right. apply occurs_join, elem_of_list_insert_at.
Qed.

Lemma replace_go_absent (old new s : str) :
  ~ occurs old s -> replace_go old new 0 s = s.
Proof.
  induction s as [|c t IH]; [done |]. intros H.
  rewrite replace_go_miss.
  - f_equal. apply IH. intros Ho. by apply H, occurs_cons.
  - destruct (startswith old (c :: t)) eqn:E; [| done].
    destruct H. by apply occurs_here.
Qed.

Lemma replace_all_absent (d : list (str * str)) (s : str) :
  (forall k v, (k, v) ∈ d -> k <> [] /\ ~ occurs k s) ->
  replace_all d s = s.
Proof.
  induction d as [|[k v] d IH]; intros H; [done |]. cbn [replace_all].
  destruct (H k v) as [Hne Hno]; [apply list_elem_of_here |].
  rewrite replace_nonempty, replace_go_absent by done.
  apply IH. intros k' v' Hin. by apply (H k' v'), list_elem_of_further.
Qed.

End StepFacts.


Import StepFacts.

(** ** The loops of [migrate_file] against one pass *)

Module PassFacts.
Import PyStr Migrate Spec StrFacts TableFacts.

Local Ltac member :=
  rewrite ?elem_of_app, ?elem_of_cons; auto.

Lemma lookup_prefix_Some (d : list (str * str)) (s k v : str) :
  lookup_prefix d s = Some (k, v) ->
  (k, v) ∈ d /\ startswith k s = true.
Proof.
  induction d as [|[k' v'] d IH]; [done |]. cbn [lookup_prefix].
  destruct (startswith k' s) eqn:E.
  - intros [= <- <-]. split; [apply list_elem_of_here | done].
  - intros [Hin Hs]%IH. split; [by apply list_elem_of_further | done].
Qed.

Lemma lookup_prefix_None (d : list (str * str)) (s k v : str) :
  lookup_prefix d s = None -> (k, v) ∈ d -> startswith k s = false.
Proof.
  induction d as [|[k' v'] d IH]; [by intros _ ?%elem_of_nil |].
  cbn [lookup_prefix]. destruct (startswith k' s) eqn:E; [done |].
  intros H [[= -> ->] | Hin]%elem_of_cons; [done | by apply IH].
Qed.

(** Two texts that stop at their first [q] and start the same text are the
    same. *)
Lemma first_quote_unique (q : char) (a b x y : str) :
  q ∉ a -> q ∉ b -> a ++ q :: x = b ++ q :: y -> a = b.
Proof.
  revert b. induction a as [|c a IH]; intros [|c' b] Ha Hb E.
  - done.
  - injection E as -> _. destruct Hb. apply list_elem_of_here.
  - injection E as -> _. destruct Ha. apply list_elem_of_here.
  - injection E as -> E. f_equal. apply (IH b); [| | done].
    + intros ?. apply Ha. by apply list_elem_of_further.
    + intros ?. apply Hb. by apply list_elem_of_further.
Qed.

Lemma keys_functional (d : list (str * str)) (k v v' : str) :
  NoDup (keys d) -> (k, v) ∈ d -> (k, v') ∈ d -> v = v'.
Proof.
  induction d as [|[k0 v0] d IH]; [by intros _ ?%elem_of_nil |].
  cbn [keys List.map fst]. intros [Hno Hnd]%NoDup_cons.
  assert (forall u, (k0, u) ∈ d -> False) as Hk0.
  { intros u Hu. apply Hno, list_elem_of_In, in_map_iff.
    exists (k0, u). split; [done | by apply list_elem_of_In]. }
  intros [[= -> ->] | H1]%elem_of_cons [[= <-] | H2]%elem_of_cons.
  - done.
  - by destruct (Hk0 v').
  - subst. by destruct (Hk0 v).
  - by apply IH.
Qed.

(** A text without the quote in front of the scan is copied. *)
Lemma replace_go_copy (q : char) (body new x s : str) :
  q ∉ x ->
  replace_go (q :: body) new 0 (x ++ s) =
  x ++ replace_go (q :: body) new 0 s.
Proof.
  induction x as [|c x IH]; intros Hq; [done |]. cbn [app].
  rewrite replace_go_miss.
  - f_equal. apply IH. intros ?. apply Hq. by apply list_elem_of_further.
  - cbn [startswith]. destruct (N.eqb_spec q c) as [-> |]; [| done].
    destruct Hq. apply list_elem_of_here.
Qed.

Lemma one_pass_skip (d : list (str * str)) (x rest : str) :
  one_pass d (length x) (x ++ rest) = one_pass d 0 rest.
Proof.
  induction x as [|c x IH]; [done |]. cbn [length app one_pass]. apply IH.
Qed.

Lemma render_nil (toks : list token) : render [] toks = source toks.
Proof.
  induction toks as [|[c | k v] ts IH]; cbn [render source];
    [done | by rewrite IH |].
  rewrite IH. case_bool_decide as H; [by apply elem_of_nil in H | done].
Qed.

Section Table.
Variables (q : char) (d : list (str * str)).
Hypothesis keys_quoted :
  forall k v, (k, v) ∈ d -> exists body, k = q :: body ++ [q] /\ q ∉ body.
Hypothesis symbols_clean :
  forall k v, (k, v) ∈ d -> v <> [] /\ q ∉ v.
Hypothesis symbols_apart :
  forall k v k' v', (k, v) ∈ d -> (k', v') ∈ d -> ~ occurs v' k.
Hypothesis keys_distinct : NoDup (keys d).

Lemma drop_to_quote (body rest : str) :
  drop (length (q :: body ++ [q]) - 1) ((q :: body ++ [q]) ++ rest) =
  q :: rest.
Proof.
  replace (length (q :: body ++ [q]) - 1) with (length (q :: body))
    by (cbn [length]; rewrite length_app; simpl; lia).
  replace ((q :: body ++ [q]) ++ rest) with ((q :: body) ++ q :: rest)
    by (cbn [app]; by rewrite <- app_assoc).
  apply drop_app_length.
Qed.

(** A text that stops at its first quote and holds no symbol is, when it
    starts the rendered text, at the start of the source text as well. *)
Lemma prefix_unrender (seen : list str) (toks : list token) (xb : str) :
  valid d toks -> q ∉ xb ->
  (forall k v, (k, v) ∈ d -> ~ occurs v xb) ->
  (xb ++ [q]) `prefix_of` render seen toks ->
  (xb ++ [q]) `prefix_of` source toks.
Proof.
  revert xb. induction toks as [|[c | k v] ts IH]; intros xb Hv Hq Hs [r E].
  - by destruct xb.
  - cbn [valid render source] in *. destruct Hv as [_ Hv].
    destruct xb as [|a xb]; cbn [app] in E; injection E as <- E.
    + by exists (source ts).
    + apply prefix_cons, IH; try done.
      * intros ?. apply Hq. by apply list_elem_of_further.
      * intros k v Hin Ho. by apply (Hs k v Hin), occurs_cons.
      * by exists r.
  - cbn [valid render source] in *. destruct Hv as (Hl & _ & Hv).
    apply lookup_prefix_Some in Hl as [Hin _].
    destruct (keys_quoted k v Hin) as (body & -> & Hbody).
    destruct (symbols_clean _ v Hin) as [Hne Hqv].
    case_bool_decide as Hseen.
    + (* the occurrence has been replaced by its symbol *)
      symmetry in E. apply app_eq_app in E as [m [[E1 E2] | [E1 E2]]].
      * destruct (decide (m = [])) as [-> | Hm].
        { destruct Hqv. rewrite app_nil_r in E1. rewrite <- E1. member. }
        destruct (suffix_closed q xb v m E1 Hm) as [z ->].
        rewrite app_assoc in E1. apply app_inj_tail in E1 as [-> _].
        destruct (Hs _ v Hin). by exists [], z.
      * destruct Hqv. rewrite E1. member.
    + (* the occurrence is still in the text *)
      destruct xb as [|a xb].
      * by exists ((body ++ [q]) ++ source ts).
      * cbn [app] in E. injection E as -> _. destruct Hq.
        apply list_elem_of_here.
Qed.

(** One loop turn: the key [k0] is dealt with. *)
Lemma replace_go_render (pre post : list (str * str)) (k0 v0 : str)
    (toks : list token) :
  d = pre ++ (k0, v0) :: post -> valid d toks ->
  replace_go k0 v0 0 (render (keys pre) toks) =
  render (keys pre ++ [k0]) toks.
Proof.
  intros Hd Hv.
  assert ((k0, v0) ∈ d) as Hin0 by (rewrite Hd; member).
  destruct (keys_quoted k0 v0 Hin0) as (body0 & -> & Hbody0).
  assert (forall k v, (k, v) ∈ d -> ~ occurs v body0) as Hclean.
  { intros k v Hin Ho. apply (symbols_apart _ v0 k v Hin0 Hin).
    by apply occurs_cons, occurs_app_l. }
  assert (q :: body0 ++ [q] ∉ keys pre) as Hfresh.
  { pose proof keys_distinct as Hnd. rewrite Hd in Hnd. unfold keys in Hnd.
    rewrite List.map_app in Hnd. cbn [List.map fst] in Hnd.
    apply NoDup_app in Hnd as (_ & Hnd & _). intros H. apply (Hnd _ H).
    apply list_elem_of_here. }
  (* a quote in the rendered text at which [k0] starts does so in the
     source text too *)
  assert (forall ts, valid d ts ->
            startswith (q :: body0 ++ [q]) (q :: render (keys pre) ts) = true ->
            startswith (q :: body0 ++ [q]) (q :: source ts) = true) as Hback.
  { intros ts Hts [r E]%startswith_spec. injection E as E.
    destruct (prefix_unrender (keys pre) ts body0 Hts Hbody0 Hclean)
      as [r' ->]; [by exists r |].
    apply startswith_spec. by exists r'. }
  induction toks as [|[c | k v] ts IH]; cbn [valid render source] in *.
  - done.
  - destruct Hv as [Hl Hv]. rewrite replace_go_miss; [by rewrite IH |].
    destruct (startswith (q :: body0 ++ [q]) (c :: render (keys pre) ts))
      eqn:E; [| done].
    assert (c = q) as ->.
    { apply startswith_spec in E as [r E]. by injection E as <- _. }
    apply Hback in E; [| done].
    by rewrite (lookup_prefix_None d _ _ v0 Hl Hin0) in E.
  - destruct Hv as (Hl & Hclose & Hv). specialize (IH Hv).
    apply lookup_prefix_Some in Hl as [Hin _].
    destruct (keys_quoted k v Hin) as (body & -> & Hbody).
    destruct (symbols_clean _ v Hin) as [Hne Hqv].
    rewrite drop_to_quote in Hclose.
    case_bool_decide as Hseen.
    + rewrite bool_decide_eq_true_2 by member.
      by rewrite replace_go_copy, IH.
    + destruct (decide (q :: body ++ [q] = q :: body0 ++ [q])) as [E | Hne0].
      * assert (body = body0) as ->.
        { injection E as E. by apply app_inv_tail in E. }
        rewrite bool_decide_eq_true_2 by member.
        rewrite (keys_functional d _ v v0 keys_distinct Hin Hin0).
        rewrite replace_go_hit by done. by rewrite IH.
      * rewrite bool_decide_eq_false_2
          by (intros [H | H%list_elem_of_singleton]%elem_of_app; done).
        (* the key is copied: [k0] starts neither at its first quote, nor
           inside it, nor at its last quote *)
        cbn [app]. rewrite replace_go_miss.
        2:{ destruct (startswith (q :: body0 ++ [q])
                        (q :: (body ++ [q]) ++ render (keys pre) ts)) eqn:E;
              [| done].
            apply startswith_spec in E as [r E]. injection E as E.
            rewrite <- !app_assoc in E. cbn [app] in E.
            destruct Hne0. f_equal. f_equal. symmetry.
            by eapply (first_quote_unique q). }
        f_equal. rewrite <- !app_assoc, replace_go_copy by done. f_equal.
        cbn [app]. rewrite replace_go_miss; [by rewrite IH |].
        destruct (startswith (q :: body0 ++ [q])
                    (q :: render (keys pre) ts)) eqn:E; [| done].
        apply Hback in E; [| done].
        by rewrite (lookup_prefix_None d _ _ v0 Hclose Hin0) in E.
Qed.

(** The loop turns that are left, after those for [pre]. *)
Lemma replace_all_render (pre post : list (str * str)) (toks : list token) :
  d = pre ++ post -> valid d toks ->
  replace_all post (render (keys pre) toks) = render (keys d) toks.
Proof.
  revert pre. induction post as [|[k0 v0] post IH]; intros pre Hd Hv.
  - rewrite app_nil_r in Hd. by rewrite Hd.
  - cbn [replace_all].
    assert ((k0, v0) ∈ d) as Hin0 by (rewrite Hd; member).
    destruct (keys_quoted k0 v0 Hin0) as (body0 & Hk0 & _).
    rewrite replace_nonempty by (by rewrite Hk0).
    rewrite (replace_go_render pre post) by done.
    replace (keys pre ++ [k0]) with (keys (pre ++ [(k0, v0)]))
      by (unfold keys; by rewrite List.map_app).
    apply IH; [by rewrite <- app_assoc | done].
Qed.

(** What [one_pass] returns is the rendering of a valid cut. *)
Lemma one_pass_tokens (s out : str) :
  one_pass d 0 s = Some out ->
  exists toks, source toks = s /\ valid d toks /\ render (keys d) toks = out.
Proof.
  remember (length s) as n eqn:Hn. revert s out Hn.
  induction n as [n IH] using lt_wf_ind. intros [|c t] out Hn.
  - intros [= <-]. by exists [].
  - cbn [one_pass].
    destruct (lookup_prefix d (c :: t)) as [[k v]|] eqn:El.
    + destruct (lookup_prefix d (drop (length k - 1) (c :: t))) eqn:Ec;
        [done |].
      destruct (lookup_prefix_Some _ _ _ _ El) as [Hin [rest E]%startswith_spec].
      destruct (keys_quoted k v Hin) as (body & Hk & Hbody).
      assert (t = (body ++ [q]) ++ rest) as Ht.
      { rewrite Hk in E. by injection E as _ ->. }
      replace (length k - 1) with (length (body ++ [q]))
        by (rewrite Hk; cbn [length]; lia).
      rewrite Ht, one_pass_skip.
      destruct (one_pass d 0 rest) as [out'|] eqn:Er; [| done].
      intros [= <-].
      destruct (IH (length rest)) with (s := rest) (out := out')
        as (toks & Hs & Hv & Hr); [| done | done |].
      { rewrite Hn, Ht. cbn [length]. rewrite length_app. lia. }
      exists (Key k v :: toks). cbn [source valid render].
      rewrite Hs, Hr, <- E. repeat split; try done; [by rewrite Ht |].
      rewrite bool_decide_eq_true_2; [done |].
      apply list_elem_of_In, in_map_iff. exists (k, v).
      split; [done | by apply list_elem_of_In].
    + destruct (one_pass d 0 t) as [out'|] eqn:Er; [| done].
      intros [= <-].
      destruct (IH (length t)) with (s := t) (out := out')
        as (toks & Hs & Hv & Hr); [| done | done |].
      { rewrite Hn. cbn [length]. lia. }
      exists (Chr c :: toks). cbn [source valid render].
      by rewrite Hs, Hr.
Qed.

(** The loops over the whole table do what one pass does. *)
Lemma replace_all_one_pass (s out : str) :
  one_pass d 0 s = Some out -> replace_all d s = out.
Proof.
  intros (toks & <- & Hv & <-)%one_pass_tokens.
  rewrite <- render_nil. by apply (replace_all_render []).
Qed.

End Table.

Lemma table_strict_spec (q : char) (d : list (str * str)) :
  table_strict q d = true ->
  (forall k v, (k, v) ∈ d -> exists body, k = q :: body ++ [q] /\ q ∉ body) /\
  (forall k v, (k, v) ∈ d -> v <> [] /\ q ∉ v) /\
  (forall k v k' v', (k, v) ∈ d -> (k', v') ∈ d -> ~ occurs v' k) /\
  NoDup (keys d).
Proof.
  unfold table_strict.
  intros [[Hok Hinner]%andb_true_iff Hnd%bool_decide_eq_true]%andb_true_iff.
  destruct (table_ok_spec q d Hok) as [Hkv Hapart].
  rewrite forallb_forall in Hinner.
  split; [| split; [| split; [exact Hapart | exact Hnd]]].
  - intros k v Hin. destruct (Hkv k v Hin) as [Hk _].
    apply key_ok_spec in Hk as (body & -> & Hne & [-> | [y ->]] & _);
      [done |].
    exists y. split; [done |].
    apply list_elem_of_In, Hinner in Hin. cbn [fst inner_ok] in Hin.
    rewrite removelast_last, forallb_forall in Hin.
    intros Hq%list_elem_of_In. apply Hin in Hq.
    by rewrite N.eqb_refl in Hq.
  - intros k v Hin. destruct (Hkv k v Hin) as [_ Hv].
    by apply symbol_ok_spec.
Qed.

Lemma all_mappings_strict : table_strict quote ALL_MAPPINGS = true.
Proof. vm_compute. reflexivity. Qed.

End PassFacts.


Import PassFacts.


(** ** A literal that stands apart gets its symbol *)

Module SymbolFacts.
Import PyStr PyRe Migrate Spec StrFacts TableFacts ReFacts LineFacts
  MigrateFacts StepFacts PassFacts.

Local Ltac member :=
  rewrite ?elem_of_app, ?elem_of_cons; auto.

Lemma ends_with_spec (x s : str) : ends_with x s = true <-> x `suffix_of` s.
Proof.
  unfold ends_with. rewrite startswith_spec. split.
  - intros [r E]. exists (rev r).
    by rewrite <- (rev_involutive s), E, rev_app_distr, rev_involutive.
  - intros [p ->]. exists (rev p). by rewrite rev_app_distr.
Qed.

Lemma prefix_startswith (x s : str) :
  x `prefix_of` s <-> startswith x s = true.
Proof. by rewrite startswith_spec. Qed.

(** *** One loop turn next to an occurrence that it leaves alone *)

Section Turn.
Variables (q : char) (body0 v0 : str).
Hypothesis body0_clean : q ∉ body0.
Hypothesis v0_nonempty : v0 <> [].
Hypothesis v0_clean : q ∉ v0.

Let k0 := q :: body0 ++ [q].

(** A text that starts at a quote, has no other and holds no symbol is,
    when it ends the output, at the end of the input as well. *)
Lemma suffix_unreplace (a xb : str) :
  q ∉ xb -> ~ occurs v0 xb ->
  (q :: xb) `suffix_of` replace_go k0 v0 0 a -> (q :: xb) `suffix_of` a.
Proof.
  intros Hq Hv. subst k0.
  apply (replace_go_ind (q :: body0 ++ [q]) v0 (fun a out =>
    (q :: xb) `suffix_of` out -> (q :: xb) `suffix_of` a)); [done | | |].
  - intros [p E]. by destruct p.
  - intros rest IH [p E].
    apply app_eq_app in E as [m [[E1 E2] | [E1 E2]]].
    + destruct m as [|c m].
      * apply suffix_app_r, IH. exists []. cbn [app] in *. by symmetry.
      * injection E2 as -> _. destruct v0_clean. rewrite E1. member.
    + apply suffix_app_r, IH. by exists m.
  - intros c t _ IH [[|c' p] E].
    + injection E as -> E. exists [].
      destruct (contains (q :: body0 ++ [q]) t) eqn:Ec.
      * apply contains_spec, (replace_go_adds _ v0) in Ec; [| done].
        rewrite E in Ec. by destruct Hv.
      * apply contains_false in Ec.
        rewrite (replace_go_absent _ v0 t Ec) in E. by rewrite E.
    + injection E as <- E. apply suffix_cons_r, IH. by exists p.
Qed.

(** The turn for [k0] goes past an occurrence of another key [k] that no
    occurrence of [k0] shares a quote with. *)
Lemma replace_go_past (body a b : str) :
  q ∉ body -> body <> body0 ->
  ~ (q :: body0) `suffix_of` a -> ~ (body0 ++ [q]) `prefix_of` b ->
  replace_go k0 v0 0 (a ++ (q :: body ++ [q]) ++ b) =
  replace_go k0 v0 0 a ++ (q :: body ++ [q]) ++ replace_go k0 v0 0 b.
Proof.
  intros Hbody Hne Ha Hb. subst k0. revert Ha.
  apply (replace_go_ind (q :: body0 ++ [q]) v0 (fun a out =>
    ~ (q :: body0) `suffix_of` a ->
    replace_go (q :: body0 ++ [q]) v0 0 (a ++ (q :: body ++ [q]) ++ b) =
    out ++ (q :: body ++ [q]) ++ replace_go (q :: body0 ++ [q]) v0 0 b));
    [done | | |].
  - (* the scan is at the occurrence *)
    intros _. cbn [app]. rewrite replace_go_miss.
    2:{ destruct (startswith _ _) eqn:E; [| done].
        apply startswith_spec in E as [r E]. injection E as E.
        rewrite <- !app_assoc in E. cbn [app] in E. destruct Hne.
        by eapply (first_quote_unique q). }
    f_equal. rewrite <- !app_assoc, replace_go_copy by done. f_equal.
    cbn [app]. rewrite replace_go_miss; [done |].
    destruct (startswith _ _) eqn:E; [| done].
    apply startswith_spec in E as [r E]. injection E as E.
    destruct Hb. by exists r.
  - intros rest IH Ha. rewrite <- app_assoc, replace_go_hit by done.
    rewrite <- app_assoc. f_equal. apply IH.
    intros H. by apply Ha, suffix_app_r.
  - intros c t Hmiss IH Ha. cbn [app]. rewrite replace_go_miss.
    + f_equal. apply IH. intros H. by apply Ha, suffix_cons_r.
    + destruct (startswith (q :: body0 ++ [q])
                  (c :: t ++ (q :: body ++ [q]) ++ b)) eqn:E; [| done].
      (* [k0] would start in [a] and end in the occurrence *)
      apply startswith_spec in E as [r E].
      assert (~ (q :: body0 ++ [q]) `prefix_of` (c :: t)) as Hno.
      { intros H%prefix_startswith. congruence. }
      change (c :: t ++ (q :: body ++ [q]) ++ b)
        with ((c :: t) ++ (q :: body ++ [q]) ++ b) in E.
      apply app_eq_app in E as [m [[E1 E2] | [E1 E2]]].
      * destruct Hno. by exists m.
      * (* [c :: t] is a proper part of [k0] and [m] starts with a quote *)
        destruct m as [|c' m].
        { destruct Hno. exists []. by rewrite app_nil_r in *. }
        cbn [app] in E2. injection E2 as <- E2.
        destruct Ha. exists [].
        change (q :: body0 ++ [q]) with ((q :: body0) ++ [q]) in E1.
        destruct (decide (m = [])) as [-> | Hm].
        { by apply app_inj_tail in E1 as [<- _]. }
        destruct (exists_last Hm) as (m' & z & ->).
        rewrite (app_comm_cons m' [z] q), app_assoc in E1.
        apply app_inj_tail in E1 as [E1 _].
        cbn [app] in E1. injection E1 as _ E1.
        destruct body0_clean. rewrite E1. member.
Qed.

End Turn.

(** *** The loop turns before the one of the key *)

Lemma removelast_key (q : char) (body : str) :
  removelast (q :: body ++ [q]) = q :: body.
Proof. apply (removelast_last (q :: body) q). Qed.

Section Turns.
Variables (q : char) (d : list (str * str)).
Hypothesis d_strict : table_strict q d = true.

Lemma replace_all_past (pre : list (str * str)) (body a b : str) :
  (forall k v, (k, v) ∈ pre -> (k, v) ∈ d /\ k <> q :: body ++ [q]) ->
  q ∉ body -> clear_of pre a b ->
  replace_all pre (a ++ (q :: body ++ [q]) ++ b) =
  replace_all pre a ++ (q :: body ++ [q]) ++ replace_all pre b.
Proof.
  destruct (table_strict_spec q d d_strict) as (Hk & Hs & Ha & _).
  intros Hpre Hbody. revert a b.
  induction pre as [|[k0 v0] pre IH]; intros a b Hclear; [done |].
  cbn [replace_all].
  destruct (Hpre k0 v0) as [Hin0 Hne0]; [member |].
  destruct (Hk k0 v0 Hin0) as (body0 & -> & Hbody0).
  destruct (Hs _ v0 Hin0) as [Hv0 Hq0].
  destruct (Hclear (q :: body0 ++ [q]) v0) as [Hca Hcb]; [member |].
  rewrite removelast_key in Hca. cbn [tl] in Hcb.
  rewrite !replace_nonempty by done.
  rewrite (replace_go_past q body0 v0) by (try done; congruence).
  apply IH.
  - intros k v Hin. apply Hpre. member.
  - intros k v Hin. destruct (Hpre k v) as [Hin' _]; [member |].
    destruct (Hk k v Hin') as (bk & -> & Hbk).
    destruct (Hclear (q :: bk ++ [q]) v) as [Hka Hkb]; [member |].
    rewrite removelast_key in *. cbn [tl] in *.
    assert (~ occurs v0 bk) as Hvk.
    { intros Ho. apply (Ha _ v _ v0 Hin' Hin0).
      by apply occurs_cons, occurs_app_l. }
    split.
    + intros H. by apply Hka, (suffix_unreplace q body0 v0).
    + intros H. apply Hkb.
      apply (prefix_unreplace q (q :: body0 ++ [q]) v0); try done.
      * right. by exists bk.
      * intros Ho. apply (Ha _ v _ v0 Hin' Hin0). by apply occurs_cons.
Qed.

(** The key that stands apart is still there when its turn comes, and so
    its symbol is in the result. *)
Lemma replace_all_symbol (pre post : list (str * str)) (old new a b : str) :
  d = pre ++ (old, new) :: post ->
  clear_of pre a b ->
  occurs new (replace_all d (a ++ old ++ b)).
Proof.
  destruct (table_strict_spec q d d_strict) as (Hk & Hs & Ha & Hnd).
  intros E Hclear.
  assert ((old, new) ∈ d) as Hin by (rewrite E; member).
  destruct (Hk old new Hin) as (body & -> & Hbody).
  assert (table_ok q (pre ++ (q :: body ++ [q], new) :: post) = true) as Hok.
  { rewrite <- E. revert d_strict. unfold table_strict.
    by intros [[? _]%andb_true_iff _]%andb_true_iff. }
  rewrite E at 1. apply (table_adds q); [done |].
  assert (forall k v, (k, v) ∈ pre -> (k, v) ∈ d /\ k <> q :: body ++ [q])
    as Hpre.
  { intros k v Hkv. split; [rewrite E; member |]. intros ->.
    rewrite E in Hnd. unfold keys in Hnd. rewrite List.map_app in Hnd.
    cbn [List.map fst] in Hnd. apply NoDup_app in Hnd as (_ & Hnd & _).
    apply (Hnd (q :: body ++ [q])); [| apply list_elem_of_here].
    apply list_elem_of_In, in_map_iff. exists (q :: body ++ [q], v).
    split; [done | by apply list_elem_of_In]. }
  rewrite replace_all_past; try done.
  apply occurs_app_r, occurs_app_l, occurs_refl.
Qed.

(** A table without a key twice splits at a key into the pairs before it,
    its pair and the rest. *)
Lemma earlier_split (old new : str) (t : list (str * str)) :
  NoDup (keys t) -> (old, new) ∈ t ->
  exists post, t = earlier old t ++ (old, new) :: post.
Proof.
  induction t as [|[k v] t IH]; intros Hnd Hin; [by apply elem_of_nil in Hin |].
  cbn [keys List.map fst] in Hnd. apply NoDup_cons in Hnd as [Hk Hnd].
  cbn [earlier fst]. case_bool_decide as Hko.
  - subst k. apply elem_of_cons in Hin as [[= <-] | Hin]; [by exists t |].
    destruct Hk. apply list_elem_of_In, in_map_iff. exists (old, new).
    split; [done | by apply list_elem_of_In].
  - apply elem_of_cons in Hin as [[= -> _] | Hin]; [done |].
    destruct (IH Hnd Hin) as [post E]. exists post. cbn [app]. by f_equal.
Qed.

End Turns.

(** *** The import-ensuring step next to an occurrence that it keeps *)

Lemma last_quote_unique (q : char) (p m a b : str) :
  p ++ q :: m = a ++ q :: b -> q ∉ m -> q ∉ b -> m = b.
Proof.
  intros E Hm Hb.
  apply app_eq_app in E as [l [[E1 E2] | [E1 E2]]].
  - destruct l as [|c l]; [by injection E2 |].
    injection E2 as -> E2. destruct Hb. rewrite E2. member.
  - destruct l as [|c l]; [by injection E2 |].
    injection E2 as -> E2. destruct Hm. rewrite E2. member.
Qed.

Lemma import_no_quote : quote ∉ py "import".
Proof. apply (symbol_ok_spec quote (py "import")). vm_compute. reflexivity. Qed.

(** A text that has the word [import] at its start and stops at its first
    quote has the word in it. *)
Lemma import_before_quote (xb k t : str) :
  quote ∉ xb -> (xb ++ [quote]) ++ k = py "import" ++ t ->
  occurs (py "import") xb.
Proof.
  intros Hq E. rewrite <- app_assoc in E.
  apply app_eq_app in E as [l [[E1 E2] | [E1 E2]]].
  - exists [], l. by rewrite E1.
  - destruct l as [|c l].
    + exists [], []. rewrite app_nil_r in E1. rewrite <- E1.
      by rewrite app_nil_r.
    + injection E2 as <- _. destruct import_no_quote. rewrite E1. member.
Qed.

(** What the pattern matches starts with [import] and ends with a quote
    and a semicolon. *)
Lemma import_match_shape (s rest : str) :
  re_match import_re s = Some rest ->
  exists m, s = m ++ rest /\ m <> [] /\
            (exists m1, m = py "import" ++ m1) /\
            (exists m0, m = m0 ++ [quote; 59%N]).
Proof.
  intros (ws1 & syms & ws2 & ws3 & _ & ->)%import_re_sound.
  exists (import_clause ws1 syms ws2 ws3). split; [done |].
  unfold import_clause. split; [| split].
  - intros E. apply app_eq_nil in E as [E _]. vm_compute in E. discriminate.
  - by eexists.
  - exists (py "import" ++ ws1 ++ [123%N] ++ syms ++ [125%N] ++ ws2 ++
            py "from" ++ ws3 ++ py "'@intexuraos/llm-contract").
    rewrite <- !app_assoc. reflexivity.
Qed.

Lemma outside_skip (r : regex) (k : nat) (t tail : str) :
  outside r k t tail = true ->
  exists y t2, t = y ++ t2 /\ length y = k /\ outside r 0 t2 tail = true.
Proof.
  revert t. induction k as [|k IH]; intros t H.
  - by exists [], t.
  - destruct t as [|c t]; [done |]. cbn [outside] in H.
    destruct (IH t H) as (y & t2 & -> & Hy & Ho).
    exists (c :: y), t2. cbn [length]. by rewrite Hy.
Qed.

(** The scan of [re.sub] up to a place outside every match: the text that
    follows is treated on its own, and a text that starts at a quote and
    has no other ends the output only if it ends the input. *)
Lemma sub_go_left (l tail : str) :
  outside import_re 0 l tail = true ->
  exists l',
    sub_go import_re import_statement 0 (l ++ tail) =
      l' ++ sub_go import_re import_statement 0 tail /\
    (forall xb, quote ∉ xb ->
       (quote :: xb) `suffix_of` l' -> (quote :: xb) `suffix_of` l) /\
    (quote ∉ l' -> l' = l).
Proof.
  remember (length l) as n eqn:Hn. revert l Hn.
  induction n as [n IH] using lt_wf_ind. intros [|c t] Hn Hout.
  { exists []. split; [done |]. split; [| done].
    intros xb _ [p E]. by destruct p. }
  cbn [outside] in Hout.
  destruct (re_match import_re ((c :: t) ++ tail)) as [rest|] eqn:Em.
  - (* a match starts here *)
    destruct (import_match_shape _ _ Em) as (m & E & Hm & _ & [m0 Hm0]).
    assert (length ((c :: t) ++ tail) - length rest = S (length m - 1)) as El.
    { rewrite E, length_app. destruct m; [done | cbn [length]; lia]. }
    rewrite El in Hout.
    destruct (outside_skip _ _ _ _ Hout) as (y & t2 & -> & Hy & Ho).
    assert (m = c :: y /\ rest = t2 ++ tail) as [-> ->].
    { apply app_inj_1.
      - destruct m; [done |]. cbn [length] in *. lia.
      - rewrite <- E. cbn [app]. by rewrite <- app_assoc. }
    destruct (IH (length t2)) with (l := t2) as (l2 & E2 & Hs2 & Hq2);
      [| done | done |].
    { rewrite Hn. cbn [length]. rewrite length_app. lia. }
    exists (import_statement ++ l2). split; [| split].
    + replace ((c :: y ++ t2) ++ tail) with ((c :: y) ++ t2 ++ tail)
        by (cbn [app]; by rewrite <- app_assoc).
      rewrite sub_go_hit; [| done |].
      * by rewrite E2, <- app_assoc.
      * rewrite <- Em. f_equal. cbn [app]. by rewrite <- app_assoc.
    + intros xb Hxb [p Ep].
      assert ((quote :: xb) `suffix_of` t2 ->
              (quote :: xb) `suffix_of` (c :: y ++ t2)) as Hup.
      { intros H. apply suffix_cons_r. by apply suffix_app_r. }
      apply app_eq_app in Ep as [mm [[E1 E3] | [E1 E3]]].
      * destruct mm as [|c' mm].
        { apply Hup, Hs2; [done |]. exists []. cbn [app] in *. done. }
        injection E3 as <- E3.
        assert (mm = [59%N]) as ->.
        { apply (last_quote_unique quote p mm
                   (py "import { LlmModels, LlmProviders } from '@intexuraos/llm-contract")
                   [59%N]).
          - by rewrite <- E1.
          - intros H. apply Hxb. rewrite E3. member.
          - vm_compute. by intros [? | []%elem_of_nil]%elem_of_cons. }
        rewrite Hq2 in E3 by (intros H; apply Hxb; rewrite E3; member).
        exists m0. rewrite E3.
        change (c :: y ++ t2) with ((c :: y) ++ t2).
        rewrite Hm0, <- app_assoc. reflexivity.
      * apply Hup, Hs2; [done |]. by exists mm.
    + intros H. destruct H. apply elem_of_app. left.
      apply list_elem_of_In. vm_compute. tauto.
  - (* no match starts here *)
    destruct (IH (length t)) with (l := t) as (lt & Et & Hst & Hqt);
      [| done | done |].
    { rewrite Hn. cbn [length]. lia. }
    exists (c :: lt). split; [| split].
    + cbn [app] in *. rewrite sub_go_miss by done. by rewrite Et.
    + intros xb Hxb [[|c' p] Ep].
      * injection Ep as -> Ep. rewrite Hqt in Ep by (by rewrite Ep).
        exists []. by rewrite Ep.
      * injection Ep as <- Ep. apply suffix_cons_r, Hst; [done |].
        by exists p.
    + intros H. f_equal. apply Hqt. intros ?. apply H. member.
Qed.

(** No match of the pattern starts at a text that stops at its first quote
    and does not hold the word [import]. *)
Lemma no_match_before_quote (xb k : str) :
  quote ∉ xb -> ~ occurs (py "import") xb ->
  re_match import_re ((xb ++ [quote]) ++ k) = None.
Proof.
  intros Hq Hno.
  destruct (re_match import_re ((xb ++ [quote]) ++ k)) as [rest|] eqn:Em;
    [| done].
  destruct (import_match_shape _ _ Em) as (m & E & _ & [m1 ->] & _).
  destruct Hno. apply (import_before_quote xb k (m1 ++ rest)); [done |].
  by rewrite E, <- app_assoc.
Qed.

Lemma no_match_in_body (o r : str) :
  quote ∉ o -> ~ occurs (py "import") o ->
  no_match_in import_re (o ++ [quote]) r = true.
Proof.
  induction o as [|c o IH]; intros Hq Hno.
  - cbn [app no_match_in].
    change (quote :: r) with (([] ++ [quote]) ++ r).
    by rewrite no_match_before_quote.
  - cbn [app no_match_in].
    change (c :: (o ++ [quote]) ++ r) with (((c :: o) ++ [quote]) ++ r).
    rewrite no_match_before_quote by done. apply IH.
    + intros ?. apply Hq. member.
    + intros ?. by apply Hno, occurs_cons.
Qed.

Lemma no_match_in_key (body r : str) :
  quote ∉ body -> ~ occurs (py "import") body ->
  no_match_in import_re (quote :: body ++ [quote]) r = true.
Proof.
  intros Hq Hno. cbn [no_match_in].
  change ((quote :: body ++ [quote]) ++ r)
    with (([] ++ [quote]) ++ (body ++ [quote]) ++ r).
  rewrite no_match_before_quote.
  - by apply no_match_in_body.
  - apply not_elem_of_nil.
  - intros H%occurs_nil_inv. vm_compute in H. discriminate.
Qed.

(** A text that stops at its first quote and does not hold the word
    [import] starts the output of [re.sub] only if it starts the input. *)
Lemma prefix_unsub (xb s : str) :
  quote ∉ xb -> ~ occurs (py "import") xb ->
  (xb ++ [quote]) `prefix_of` sub_go import_re import_statement 0 s ->
  (xb ++ [quote]) `prefix_of` s.
Proof.
  revert xb. induction s as [|c t IH]; intros xb Hq Hno [k E].
  - change (sub_go import_re import_statement 0 []) with (@nil N) in E.
    by destruct xb.
  - destruct (re_match import_re (c :: t)) as [rest|] eqn:Em.
    + assert (exists z, sub_go import_re import_statement 0 (c :: t) =
                        import_statement ++ z) as [z Ez].
      { cbn [sub_go]. rewrite Em.
        destruct (length (c :: t) - length rest); by eexists. }
      rewrite Ez in E. destruct Hno.
      apply (import_before_quote xb k
               (py " { LlmModels, LlmProviders } from '@intexuraos/llm-contract';"
                ++ z)); [done |].
      rewrite <- E. by rewrite app_assoc.
    + rewrite sub_go_miss in E by done.
      destruct xb as [|c' xb].
      * injection E as -> _. by exists t.
      * injection E as -> E. apply prefix_cons, IH.
        -- intros ?. apply Hq. member.
        -- intros ?. by apply Hno, occurs_cons.
        -- by exists k.
Qed.

(** *** The inserted line next to an occurrence *)

Lemma join_app (sep : str) (xs ys : list str) :
  xs <> [] -> ys <> [] ->
  join sep (xs ++ ys) = join sep xs ++ sep ++ join sep ys.
Proof.
  intros Hx Hy. induction xs as [|x xs IH]; [done |]. clear Hx.
  destruct xs as [|x' xs].
  - cbn [app]. by rewrite join_cons.
  - change ((x :: x' :: xs) ++ ys) with (x :: (x' :: xs) ++ ys).
    rewrite (join_cons sep x ((x' :: xs) ++ ys)) by done.
    rewrite (join_cons sep x (x' :: xs)) by done.
    rewrite IH by done. by rewrite <- !app_assoc.
Qed.

Lemma first_import_line_lt (j : nat) (lines : list str) (i : nat) :
  first_import_line j lines = Some i -> j <= i < j + length lines.
Proof.
  revert j. induction lines as [|l lines IH]; intros j; [done |].
  cbn [first_import_line length]. destruct (is_import_line l).
  - intros [= <-]. lia.
  - intros H%IH. lia.
Qed.

(** Inserting a line after line [i]: the text up to the end of that line,
    a newline, the new line, and the rest, which is empty or starts with
    the newline that ended line [i]. *)
Lemma insert_shape (lines : list str) (i : nat) (x : str) :
  i < length lines ->
  exists a b,
    join [10%N] lines = a ++ b /\
    join [10%N] (list_insert_at (i + 1) x lines) = a ++ [10%N] ++ x ++ b /\
    (b = [] \/ exists b', b = 10%N :: b').
Proof.
  intros Hi. unfold list_insert_at.
  assert (take (i + 1) lines <> []) as Ht.
  { destruct lines; [simpl in Hi; lia |]. by rewrite Nat.add_1_r. }
  replace (join [10%N] lines)
    with (join [10%N] (take (i + 1) lines ++ drop (i + 1) lines))
    by (by rewrite take_drop).
  destruct (drop (i + 1) lines) as [|d ds].
  - exists (join [10%N] (take (i + 1) lines)), [].
    rewrite !app_nil_r. split; [done |]. split; [| by left].
    by rewrite join_app.
  - exists (join [10%N] (take (i + 1) lines)), ([10%N] ++ join [10%N] (d :: ds)).
    split; [by apply join_app |]. split; [| right; by eexists].
    rewrite join_app by done. by rewrite (join_cons _ x (d :: ds)).
Qed.

Lemma suffix_past_newline (x a m : str) :
  10%N ∉ x -> x `suffix_of` a ++ 10%N :: m -> x `suffix_of` m.
Proof.
  intros Hx [p E]. symmetry in E.
  apply app_eq_app in E as [l [[E1 E2] | [E1 E2]]].
  - destruct l as [|c l].
    + destruct Hx. cbn [app] in E2. rewrite <- E2. member.
    + injection E2 as _ ->. by exists l.
  - destruct Hx. rewrite E2. member.
Qed.

Lemma prefix_before_newline (x m b : str) :
  10%N ∉ x -> x `prefix_of` m ++ 10%N :: b -> x `prefix_of` m.
Proof.
  intros Hx [k E]. symmetry in E.
  apply app_eq_app in E as [l [[E1 E2] | [E1 E2]]].
  - destruct l as [|c l].
    + exists []. rewrite app_nil_r in E1. by rewrite E1, app_nil_r.
    + injection E2 as <- _. destruct Hx. rewrite E1. member.
  - by exists l.
Qed.

(** An occurrence of a text without newline is in the text with the new
    line as well, with the same neighbours up to the next newline. *)
Lemma insert_frame (a b x l old r : str) :
  a ++ b = l ++ old ++ r -> old <> [] -> 10%N ∉ old ->
  (b = [] \/ exists b', b = 10%N :: b') ->
  exists l' r',
    a ++ [10%N] ++ x ++ b = l' ++ old ++ r' /\
    (forall y, 10%N ∉ y -> y `suffix_of` l' -> y `suffix_of` l) /\
    (forall y, 10%N ∉ y -> y `prefix_of` r' -> y `prefix_of` r).
Proof.
  intros E Hne Hold Hb.
  apply app_eq_app in E as [m [[E1 E2] | [E1 E2]]].
  - (* the occurrence starts in [a] *)
    apply app_eq_app in E2 as [m2 [[E3 E4] | [E3 E4]]].
    + destruct m2 as [|c m2].
      * (* it ends where [a] ends *)
        rewrite app_nil_r in E3. cbn [app] in E4. subst m b.
        exists l, ([10%N] ++ x ++ r). split; [| split; [done |]].
        -- rewrite E1. by rewrite <- !app_assoc.
        -- intros y Hy [k Ek]. destruct y as [|c y]; [apply prefix_nil |].
           injection Ek as <- _. destruct Hy. member.
      * (* it cannot go over the newline *)
        destruct Hb as [-> | [b' ->]]; [done |].
        injection E4 as <- _. destruct Hold. rewrite E3. member.
    + (* it ends in [a], before the new line *)
      exists l, (m2 ++ [10%N] ++ x ++ b). split; [| split; [done |]].
      * rewrite E1, E3. by rewrite <- !app_assoc.
      * intros y Hy H%prefix_before_newline; [| done].
        rewrite E4. by apply prefix_app_r.
  - (* the occurrence is in [b] *)
    destruct Hb as [-> | [b' ->]].
    { symmetry in E2. apply app_eq_nil in E2 as [_ [E2 _]%app_eq_nil].
      done. }
    destruct m as [|c m].
    + cbn [app] in E2. destruct old as [|c old]; [done |].
      injection E2 as <- _. destruct Hold. member.
    + injection E2 as <- E2.
      exists ((a ++ [10%N] ++ x) ++ 10%N :: m), r. split; [| split; [| done]].
      * rewrite E2. rewrite <- !app_assoc. reflexivity.
      * intros y Hy H%suffix_past_newline; [| done].
        rewrite E1. replace (a ++ 10%N :: m) with ((a ++ [10%N]) ++ m)
          by (by rewrite <- app_assoc).
        by apply suffix_app_r.
Qed.

(** *** The import-ensuring step next to an occurrence that it keeps *)

Lemma table_plain_spec (d : list (str * str)) :
  table_plain d = true ->
  forall k v, (k, v) ∈ d -> (10%N ∉ k) /\ ~ occurs (py "import") k.
Proof.
  unfold table_plain. rewrite forallb_forall.
  intros H k v Hin%list_elem_of_In. apply H in Hin. cbn [fst] in Hin.
  apply andb_true_iff in Hin as [H1 H2]. split.
  - rewrite forallb_forall in H1. intros Hk%list_elem_of_In.
    apply H1 in Hk. by rewrite N.eqb_refl in Hk.
  - apply contains_false. by destruct (contains (py "import") k).
Qed.

Lemma all_mappings_plain : table_plain ALL_MAPPINGS = true.
Proof. vm_compute. reflexivity. Qed.

Lemma add_import_frame (l body r : str) :
  quote ∉ body -> 10%N ∉ body -> ~ occurs (py "import") body ->
  kept l (quote :: body ++ [quote]) r = true ->
  exists l' r',
    add_import_if_needed (l ++ (quote :: body ++ [quote]) ++ r) =
      l' ++ (quote :: body ++ [quote]) ++ r' /\
    (forall xb, quote ∉ xb -> 10%N ∉ xb ->
       (quote :: xb) `suffix_of` l' -> (quote :: xb) `suffix_of` l) /\
    (forall xb, quote ∉ xb -> 10%N ∉ xb -> ~ occurs (py "import") xb ->
       (xb ++ [quote]) `prefix_of` r' -> (xb ++ [quote]) `prefix_of` r).
Proof.
  intros Hq Hnl Hno Hkept. unfold kept in Hkept.
  destruct (has_both (l ++ (quote :: body ++ [quote]) ++ r)) eqn:Eb.
  { exists l, r. by rewrite add_import_both. }
  destruct (contains from_path (l ++ (quote :: body ++ [quote]) ++ r)) eqn:Ef.
  - (* the step runs [re.sub] *)
    cbn [orb negb] in Hkept. rewrite add_import_from by done. unfold re_sub.
    destruct (sub_go_left l _ Hkept) as (l' & E & Hs & _).
    exists l', (sub_go import_re import_statement 0 r). split; [| split].
    + rewrite E. f_equal. apply sub_go_before. by apply no_match_in_key.
    + intros xb Hxb _. by apply Hs.
    + intros xb Hxb _ Hxi. by apply prefix_unsub.
  - (* the step looks for the first import line *)
    rewrite add_import_lines by done.
    destruct (first_import_line 0
                (split 10 (l ++ (quote :: body ++ [quote]) ++ r)))
      as [i|] eqn:Ei; [| by exists l, r].
    apply first_import_line_lt in Ei.
    destruct (insert_shape
                (split 10 (l ++ (quote :: body ++ [quote]) ++ r)) i
                import_statement) as (a & b & Ea & -> & Hb); [lia |].
    rewrite join_split in Ea. symmetry in Ea.
    destruct (insert_frame a b import_statement l
                (quote :: body ++ [quote]) r Ea) as (l' & r' & E & Hs & Hp);
      [done | | done |].
    { intros [? | [? | ?%list_elem_of_singleton]%elem_of_app]%elem_of_cons;
        done. }
    exists l', r'. split; [done |]. split.
    + intros xb Hxb Hxn. apply Hs.
      by intros [? | ?]%elem_of_cons.
    + intros xb Hxb Hxn _. apply Hp.
      by intros [? | ?%list_elem_of_singleton]%elem_of_app.
Qed.

(** A literal that stands apart from the other mapped literals, and is not
    in an import clause that is replaced, has its symbol in the text that
    is written back. *)
Lemma rewrite_symbol (l old new r : str) :
  (old, new) ∈ ALL_MAPPINGS ->
  apart old l r = true -> kept l old r = true ->
  occurs new (rewrite (l ++ old ++ r)).
Proof.
  intros Hin Hapart Hkept. rewrite rewrite_all.
  destruct (table_strict_spec quote ALL_MAPPINGS all_mappings_strict)
    as (Hk & _).
  pose proof (table_plain_spec ALL_MAPPINGS all_mappings_plain) as Hplain.
  destruct (Hk old new Hin) as (body & -> & Hbody).
  destruct (Hplain _ _ Hin) as [Hnl Hno].
  destruct (add_import_frame l body r) as (l' & r' & -> & Hs & Hp);
    [done | | | done |].
  { intros ?. apply Hnl. rewrite elem_of_cons, elem_of_app. auto. }
  { intros ?. apply Hno, occurs_cons. by apply occurs_app_l. }
  destruct (table_strict_spec quote ALL_MAPPINGS all_mappings_strict)
    as (_ & _ & _ & Hnd).
  destruct (earlier_split _ _ _ Hnd Hin) as [post E].
  apply (replace_all_symbol quote ALL_MAPPINGS all_mappings_strict
           (earlier (quote :: body ++ [quote]) ALL_MAPPINGS) post); [done |].
  intros k v Hkv'.
  assert ((k, v) ∈ ALL_MAPPINGS) as Hkv by (rewrite E; member).
  unfold apart in Hapart. rewrite forallb_forall in Hapart.
  apply list_elem_of_In, Hapart in Hkv'. cbn [fst] in Hkv'.
  apply andb_true_iff in Hkv' as [H1 H2].
  destruct (Hk k v Hkv) as (bk & -> & Hbk).
  destruct (Hplain _ _ Hkv) as [Hnlk Hnok].
  assert (10%N ∉ bk) as Hnlb
    by (intros ?; apply Hnlk; rewrite elem_of_cons, elem_of_app; auto).
  rewrite removelast_key in *. cbn [tl] in *. split.
  - intros H%Hs; [| done | done].
    apply ends_with_spec in H. by rewrite H in H1.
  - intros H%Hp; [| done | done |].
    + apply prefix_startswith in H. by rewrite H in H2.
    + intros ?. apply Hnok, occurs_cons. by apply occurs_app_l.
Qed.

End SymbolFacts.

Import SymbolFacts.

(** ** The properties of the script *)

Import PyStr PyRe Migrate World Script Spec.
Import StrFacts TableFacts ReFacts LineFacts RunFacts MigrateFacts DriverFacts.

(** C1, as stated, fails: in ['google'gemini-2.5-pro'] both keys occur, but
    they share a quote.  The model loop runs first and takes the shared
    quote with it, so ['google'] is gone when the provider loop runs and
    [LlmProviders.Google] never appears in the output. *)
Lemma C1_counterexample :
  ~ (forall content old new,
       needs_migration content = true ->
       In (old, new) ALL_MAPPINGS ->
       contains old content = true ->
       contains old (rewrite content) = false /\
       contains new (rewrite content) = true).
Proof.
  intros H.
  destruct (H example_overlap (py "'google'") (py "LlmProviders.Google"))
    as [_ H2].
  - vm_compute. reflexivity.
  - unfold ALL_MAPPINGS. apply in_or_app. right. left. reflexivity.
  - vm_compute. reflexivity.
  - vm_compute in H2. discriminate.
Qed.

(** The symbol is also missing for a literal that stands between the braces
    of an import clause which the import-ensuring step replaces: the
    literal is gone before the loops run. *)
Lemma literal_in_replaced_clause :
  needs_migration example_literal_in_clause = true /\
  contains (py "'google'") example_literal_in_clause = true /\
  rewrite example_literal_in_clause = import_statement /\
  contains (py "LlmProviders.Google") (rewrite example_literal_in_clause)
  = false.
Proof. vm_compute. repeat split. Qed.

(** C1, amended: for every text that needs migration, the text that is
    written back contains no key of either table at all; and for every
    place of the input at which a key stands, it contains the symbol of
    that key, provided that the occurrence shares no quote with an
    occurrence of a key that comes earlier in the tables ([apart]) and is
    not inside an import clause that the import-ensuring step replaces
    ([kept]). *)
Theorem C1_rewrite_replaces_literals (content : str) :
  needs_migration content = true ->
  (forall old, In old (keys ALL_MAPPINGS) ->
     contains old (rewrite content) = false) /\
  (forall l old new r,
     In (old, new) ALL_MAPPINGS ->
     content = l ++ old ++ r ->
     apart old l r = true -> kept l old r = true ->
     contains new (rewrite content) = true).
Proof.
  intros _. split.
  - intros old. apply rewrite_clean.
  - intros l old new r Hin -> Hapart Hkept.
    apply contains_spec, rewrite_symbol; [| done | done].
    by apply list_elem_of_In.
Qed.

Lemma C1_rewrite_replaces_literals_witness :
  needs_migration example_braced = true /\
  contains (py "'gemini-2.5-pro'") (rewrite example_braced) = false /\
  contains (py "LlmModels.Gemini25Pro") (rewrite example_braced) = true.
Proof.
  assert (needs_migration example_braced = true) as H
    by (vm_compute; reflexivity).
  destruct (C1_rewrite_replaces_literals example_braced H) as [H1 H2].
  split; [exact H |]. split.
  - apply H1. left. reflexivity.
  - apply (H2 (py "import { Foo } from '@intexuraos/llm-contract';" ++ nl ++
               py "const m = ")
              (py "'gemini-2.5-pro'") _ (py ";")).
    + left. reflexivity.
    + vm_compute. reflexivity.
    + vm_compute. reflexivity.
    + vm_compute. reflexivity.
Defined.

(** C2: what one run makes of a text needs no further migration, so a
    second run leaves it as it is; and on any file and any world, two runs
    of [migrate_file] leave the same files as one run. *)
Theorem C2_migration_idempotent (content path : str) (w : world) :
  needs_migration (per_file content) = false /\
  per_file (per_file content) = per_file content /\
  fs (exec (migrate_file path) (exec (migrate_file path) w)) =
  fs (exec (migrate_file path) w).
Proof.
  assert (needs_migration (per_file content) = false) as Hn.
  { unfold per_file. destruct (needs_migration content) eqn:E; [| done].
    apply needs_migration_rewrite. }
  split; [done |]. split.
  - unfold per_file at 1. by rewrite Hn.
  - apply unmigratable_fs, migratable_stays. by left.
Qed.

(** C7: when both symbol names appear anywhere in the text, the
    import-ensuring step returns the text as it is. *)
Theorem C7_both_symbols_unchanged (content : str) :
  contains (py "LlmModels") content = true ->
  contains (py "LlmProviders") content = true ->
  add_import_if_needed content = content.
Proof.
  intros H1 H2. apply add_import_both. unfold has_both. by rewrite H1, H2.
Qed.

Lemma C7_both_symbols_unchanged_witness :
  add_import_if_needed (py "// LlmModels and LlmProviders, see 'google'") =
  py "// LlmModels and LlmProviders, see 'google'".
Proof.
  apply C7_both_symbols_unchanged; vm_compute; reflexivity.
Defined.

(** C10: a text that contains [from '@intexuraos/llm-contract'] but no
    match of the braced-import pattern, and not both symbol names, comes
    back unchanged: nothing is rewritten and, the second branch having
    returned, no import line is inserted either.  By [import_re_found] the
    pattern is found exactly where a braced import clause occurs. *)
Theorem C10_unbraced_import_unchanged (content : str) :
  contains from_path content = true ->
  has_both content = false ->
  re_found import_re content = false ->
  add_import_if_needed content = content.
Proof.
  intros Hfrom Hboth Hre. rewrite add_import_from by done.
  by apply re_sub_not_found.
Qed.

Lemma C10_unbraced_import_unchanged_witness :
  add_import_if_needed example_default = example_default.
Proof.
  apply C10_unbraced_import_unchanged; vm_compute; reflexivity.
Defined.

(** C6, as stated, fails: a braced import from the target module that is
    commented out is no import line and no import from the target module,
    but the text contains [from '@intexuraos/llm-contract'], so the
    import-ensuring step runs its [re.sub], which rewrites the clause inside
    the comment: the step does not return the text unchanged. *)
Lemma C6_counterexample :
  ~ (forall content,
       needs_migration content = true ->
       has_both content = false ->
       imports_from_target content = false ->
       forallb (fun l => negb (is_import_line l)) (split 10 content) = true ->
       add_import_if_needed content = content).
Proof.
  intros H. pose proof (H example_commented_import) as X.
  vm_compute in X.
  discriminate (X eq_refl eq_refl eq_refl eq_refl).
Qed.

(** C6, amended: a text with a mapped literal, without both symbol names,
    in which [from '@intexuraos/llm-contract'] occurs nowhere (not in a
    comment either) and in which no line starts with [import ] and contains
    [from], comes out of the import-ensuring step unchanged; what is
    written back is the text with the substitutions and nothing else: no
    key is left, the text is the one that a single left-to-right pass
    replacing each key by its symbol gives, where that pass goes through,
    and the symbol of every key stands in it that occurred apart from the
    keys before it in the tables. *)
Theorem C6_no_import_line_no_import (content : str) :
  needs_migration content = true ->
  has_both content = false ->
  contains from_path content = false ->
  forallb (fun l => negb (is_import_line l)) (split 10 content) = true ->
  add_import_if_needed content = content /\
  (forall old, In old (keys ALL_MAPPINGS) ->
     contains old (rewrite content) = false) /\
  (forall out, one_pass ALL_MAPPINGS 0 content = Some out ->
     rewrite content = out) /\
  (forall l old new r,
     In (old, new) ALL_MAPPINGS -> content = l ++ old ++ r ->
     apart old l r = true -> contains new (rewrite content) = true).
Proof.
  intros _ Hboth Hfrom Hlines.
  assert (add_import_if_needed content = content) as E.
  { rewrite add_import_lines by done.
    by rewrite first_import_line_none. }
  split; [done |]. split; [| split].
  - intros old. apply rewrite_clean.
  - intros out Hout. rewrite rewrite_all, E.
    destruct (table_strict_spec quote ALL_MAPPINGS all_mappings_strict)
      as (Hk & Hs & Ha & Hnd).
    by apply (replace_all_one_pass quote ALL_MAPPINGS Hk Hs Ha Hnd).
  - intros l old new r Hin -> Hapart.
    apply contains_spec, rewrite_symbol; [by apply list_elem_of_In | done |].
    unfold kept. by rewrite Hfrom, orb_true_r.
Qed.

Lemma C6_no_import_line_no_import_witness :
  add_import_if_needed example_bare = example_bare /\
  rewrite example_bare = py "const m = LlmModels.Gemini25Pro;".
Proof.
  destruct (C6_no_import_line_no_import example_bare) as (H1 & _ & H2 & _);
    try (vm_compute; reflexivity).
  split; [exact H1 |]. apply H2. vm_compute. reflexivity.
Defined.

(** C5, as stated, fails: the text below has no import from the target
    module and not both symbol names, and its second line starts with the
    import keyword and has a from clause; but the module path is named in
    the comment of the first line, so the step takes the branch of its
    [re.sub], finds nothing to replace and inserts no line. *)
Lemma C5_counterexample :
  ~ (forall content before line after,
       has_both content = false ->
       imports_from_target content = false ->
       split 10 content = before ++ line :: after ->
       forallb (fun l => negb (is_import_line l)) before = true ->
       is_import_line line = true ->
       add_import_if_needed content =
       join nl (before ++ line :: import_statement :: after)).
Proof.
  intros H.
  pose proof (H example_see_comment
                [py "// see from '@intexuraos/llm-contract'"]
                (py "import x from 'y';") [py "const m = 'gpt-4o';"]) as X.
  vm_compute in X.
  discriminate (X eq_refl eq_refl eq_refl eq_refl eq_refl).
Qed.

(** C5, amended: without both symbol names and without the text
    [from '@intexuraos/llm-contract'] anywhere, the two-symbol import is
    inserted as a line of its own right after the first line that starts
    with [import ] and contains the text [from]; the other lines and their
    order are kept. *)
Theorem C5_insert_after_first_import (content : str)
    (before : list str) (line : str) (after : list str) :
  has_both content = false ->
  contains from_path content = false ->
  split 10 content = before ++ line :: after ->
  forallb (fun l => negb (is_import_line l)) before = true ->
  is_import_line line = true ->
  add_import_if_needed content =
    join nl (before ++ line :: import_statement :: after) /\
  split 10 (add_import_if_needed content) =
    before ++ line :: import_statement :: after.
Proof.
  intros Hboth Hfrom Hsplit Hbefore Hline.
  assert (add_import_if_needed content =
          join nl (before ++ line :: import_statement :: after)) as E.
  { rewrite add_import_lines by done. rewrite Hsplit.
    rewrite first_import_line_found by done. cbn [Nat.add].
    by rewrite list_insert_after. }
  split; [done |]. rewrite E. apply split_join.
  - by destruct before.
  - intros l Hl.
    assert (l ∈ split 10 content \/ l = import_statement) as [H | ->].
    { rewrite Hsplit. revert Hl.
      rewrite !elem_of_app, !elem_of_cons. tauto. }
    + by eapply split_no_sep.
    + apply (symbol_ok_spec 10%N import_statement). vm_compute. reflexivity.
Qed.

Lemma C5_insert_after_first_import_witness :
  add_import_if_needed example_unrelated =
    py "// test" ++ nl ++ py "import x from 'y';" ++ nl ++
    import_statement ++ nl ++ py "import z from 'w';" ++ nl ++
    py "const m = 'gpt-4o';".
Proof.
  refine (eq_trans (proj1 (C5_insert_after_first_import example_unrelated
              [py "// test"] (py "import x from 'y';")
              [py "import z from 'w';"; py "const m = 'gpt-4o';"]
              _ _ _ _ _)) _); vm_compute; reflexivity.
Defined.

(** C4, as stated, fails: a default import is an import from the target
    module, and the text does contain [from '@intexuraos/llm-contract'],
    but the pattern of the rewrite asks for braces.  Nothing is rewritten
    and the two-symbol import is not in the output. *)
Lemma C4_counterexample :
  ~ (forall content,
       has_both content = false ->
       contains from_path content = true ->
       contains import_statement (add_import_if_needed content) = true).
Proof.
  intros H. specialize (H example_default).
  assert (contains import_statement (add_import_if_needed example_default)
          = false) as E by (vm_compute; reflexivity).
  rewrite E in H. discriminate H; vm_compute; reflexivity.
Qed.

(** C4, amended: when not both symbol names appear, the text contains
    [from '@intexuraos/llm-contract'], and the import from the target
    module is a braced clause [import {...} from '...';], the first such
    clause is replaced by the two-symbol import statement, whatever stood
    between its braces; the text before it is kept and the text after it is
    treated in the same way. *)
Theorem C4_braced_import_rewritten (pre ws1 syms ws2 ws3 post : str) :
  has_both (pre ++ import_clause ws1 syms ws2 ws3 ++ post) = false ->
  contains from_path (pre ++ import_clause ws1 syms ws2 ws3 ++ post) = true ->
  clause_ok ws1 syms ws2 ws3 ->
  no_match_in import_re pre (import_clause ws1 syms ws2 ws3 ++ post) = true ->
  add_import_if_needed (pre ++ import_clause ws1 syms ws2 ws3 ++ post) =
  pre ++ import_statement ++ re_sub import_re import_statement post.
Proof.
  intros Hboth Hfrom Hok Hpre. rewrite add_import_from by done.
  unfold re_sub. rewrite sub_go_before by done. f_equal.
  apply sub_go_hit.
  - unfold import_clause. intros E. apply app_eq_nil in E as [E _].
    vm_compute in E. discriminate.
  - by apply import_re_complete.
Qed.

Lemma C4_braced_import_rewritten_witness :
  add_import_if_needed
    (py "// t" ++ nl ++ import_clause (py " ") (py " Foo ") (py " ") (py " ")
     ++ nl ++ py "const m = 'gemini-2.5-pro';") =
  py "// t" ++ nl ++ import_statement ++ nl ++
  py "const m = 'gemini-2.5-pro';".
Proof.
  refine (eq_trans (eq_trans _
    (C4_braced_import_rewritten (py "// t" ++ nl) (py " ") (py " Foo ")
       (py " ") (py " ") (nl ++ py "const m = 'gemini-2.5-pro';")
       _ _ _ _)) _).
  - vm_compute. reflexivity.
  - vm_compute. reflexivity.
  - vm_compute. reflexivity.
  - repeat split; try (vm_compute; reflexivity). discriminate.
  - vm_compute. reflexivity.
  - vm_compute. reflexivity.
Defined.

(** C3: [needs_migration] holds exactly when some key of the two tables
    occurs in the text as it is written; and when it does not hold for the
    text of a file, [migrate_file] leaves the world as it found it (no
    write, no output) and returns [False], so the counter of the loop does
    not move. *)
Theorem C3_needs_migration_decides (content path : str) (w : world) (n : nat) :
  readable_text path w = Some content ->
  (needs_migration content = true <->
   exists p, In p (keys MODEL_MAPPINGS ++ keys PROVIDER_MAPPINGS) /\
             occurs p content) /\
  (needs_migration content = false ->
   migrate_file path w = (w, Return false) /\
   migrate_each [path] n w = (w, Return n)).
Proof.
  intros Hread. split; [apply any_in_spec |]. intros Hno.
  assert (migrate_file path w = (w, Return false)) as E.
  { rewrite migrate_file_cases. unfold readable_text, file_of in Hread.
    destruct (names w !! path) as [i|]; [| done].
    destruct (fs w !! i) as [f|]; [| done].
    destruct (f_data f) as [c | e]; [| done].
    injection Hread as ->. by rewrite Hno. }
  split; [done |]. cbn [migrate_each]. unfold bind. by rewrite E.
Qed.

Lemma C3_needs_migration_decides_witness :
  migrate_file path_d example_world = (example_world, Return false) /\
  migrate_each [path_d] 0 example_world = (example_world, Return 0).
Proof.
  apply (C3_needs_migration_decides (py "x = 'Google'") path_d
           example_world 0); vm_compute; reflexivity.
Defined.

(** C8: when the [try] block of [migrate_file] raises for one file,
    whatever the place, the call still returns, with [False] and with one
    line for the path and the detail on the error stream; the loop goes on
    with the files after it, and the count it ends with is the number of
    files that were read, needed migration, were announced and were written
    back.  When the discovery itself meets no exception and standard output
    takes the summary line, that count is the one [main] prints last. *)
Theorem C8_error_isolated (before : list str) (path : str)
    (after : list str) (n : nat) (w w' : world) (e : str) :
  migrate_file_try path (exec (migrate_each before n) w) = (w', Raise e) ->
  migrate_file path (exec (migrate_each before n) w) =
    (add_err (error_line path e) w', Return false) /\
  migrate_each (before ++ path :: after) n w =
    migrate_each after (n + successes before w)
      (add_err (error_line path e) w') /\
  result (migrate_each (before ++ path :: after) n) w =
    Return (n + successes before w +
            successes after (add_err (error_line path e) w')) /\
  (forall w0,
     discovery_fault w0 = None ->
     printable (summary (successes (discovered w0) w0)) w0 = true ->
     result main w0 = Return tt /\
     last (out (exec main w0)) =
       Some (summary (successes (discovered w0) w0))).
Proof.
  intros Hraise. pose proof (migrate_file_caught _ _ _ _ Hraise) as Hcaught.
  assert (migrate_each (before ++ path :: after) n w =
          migrate_each after (n + successes before w)
            (add_err (error_line path e) w')) as Hloop.
  { rewrite migrate_each_app.
    rewrite (surjective_run (migrate_each before n) w), migrate_each_count.
    cbn [migrate_each]. unfold bind. by rewrite Hcaught. }
  split; [done |]. split; [done |]. split.
  - unfold result. rewrite Hloop. apply migrate_each_count.
  - intros w0 Hd Hp. unfold result, exec, printable in *.
    rewrite main_unfold, Hd.
    destruct (out_fault w0 (summary (successes (discovered w0) w0)));
      [done |].
    cbn [fst snd out add_out]. split; [done | apply last_snoc].
Qed.

(** The first file cannot be read, the second cannot be written, the third
    is migrated and counted. *)
Lemma C8_error_isolated_witness :
  migrate_file path_b (exec (migrate_file path_a) example_world) =
    (add_err (error_line path_b (denied path_b))
       (add_out (migrating_line path_b)
          (add_err (error_line path_a (denied path_a)) example_world)),
     Return false) /\
  result (migrate_each [path_a; path_b; path_c] 0) example_world = Return 1 /\
  last (out (exec main example_world)) = Some (summary 1).
Proof.
  destruct (C8_error_isolated [path_a] path_b [path_c] 0 example_world
              (add_out (migrating_line path_b)
                 (add_err (error_line path_a (denied path_a)) example_world))
              (denied path_b)) as (H1 & _ & H3 & H4).
  - vm_compute. reflexivity.
  - split; [| split].
    + refine (eq_trans _ H1). vm_compute. reflexivity.
    + refine (eq_trans H3 _). vm_compute. reflexivity.
    + destruct (H4 example_world) as [_ H5].
      * vm_compute. reflexivity.
      * vm_compute. reflexivity.
      * refine (eq_trans H5 _). vm_compute. reflexivity.
Defined.

(** C9, as stated, fails: the line is printed before the file is written.
    For a file that can be read and needs migration but cannot be opened
    for writing, [Migrating: <path>] is on the output and the file is
    neither written nor counted. *)
Lemma C9_counterexample :
  ~ (forall path w,
       out (exec (migrate_file path) w) = out w ++ [migrating_line path] <->
       result (migrate_file path) w = Return true).
Proof.
  intros H. destruct (H path_b example_world) as [H1 _].
  assert (result (migrate_file path_b) example_world = Return false) as E
    by (vm_compute; reflexivity).
  rewrite E in H1. discriminate H1. vm_compute. reflexivity.
Qed.

(** C9, amended: a call of [migrate_file] prints exactly one
    [Migrating: <path>] line when the file can be read, its text needs
    migration and standard output takes the line, and none otherwise (the
    [print] is inside the [try]: when it raises, nothing is printed and
    nothing is written); it returns [True], and the file counts, exactly
    when the line is printed and the file can moreover be written. *)
Theorem C9_progress_line (path : str) (w : world) :
  out (exec (migrate_file path) w) =
    out w ++ (if eligible path w && printable (migrating_line path) w
              then [migrating_line path] else []) /\
  result (migrate_file path) w =
    Return (eligible path w && printable (migrating_line path) w &&
            writable path w).
Proof.
  split; [apply migrate_file_out | apply migrate_file_result].
Qed.

(** ** Further properties of the script *)

(** X1: [main] runs [migrate_file] on the files found under [apps] and then
    on those under [packages], a base that does not exist giving no files.
    When looking for the files raises ([exists] or [rglob], which are
    outside any [try]), [main] ends with that exception after the files
    found so far and prints no summary.  Otherwise it prints the summary
    line, whose number is the number of files that were read, needed
    migration, were announced and were written back; if standard output
    refuses that line, [main] ends with the exception of the [print]. *)
Theorem main_runs_discovered (w : world) :
  main w =
  match discovery_fault w with
  | Some e => (exec (migrate_each (discovered w) 0) w, Raise e)
  | None =>
      match out_fault w (summary (successes (discovered w) w)) with
      | Some e => (exec (migrate_each (discovered w) 0) w, Raise e)
      | None =>
          (add_out (summary (successes (discovered w) w))
             (exec (migrate_each (discovered w) 0) w), Return tt)
      end
  end.
Proof. apply main_unfold. Qed.

(** X2: a second run of [main] changes no file and counts none; when it
    gets to its summary line, that is when the discovery meets no exception
    and standard output takes the line, the line reports zero migrated
    files. *)
Theorem main_second_run (w : world) :
  fs (exec main (exec main w)) = fs (exec main w) /\
  successes (discovered (exec main w)) (exec main w) = 0 /\
  (discovery_fault w = None ->
   printable (summary 0) w = true ->
   result main (exec main w) = Return tt /\
   last (out (exec main (exec main w))) = Some (summary 0)).
Proof.
  set (w1 := exec main w).
  destruct (exec_main_static w) as (Hn & Hf & Ht & Ho).
  destruct (migrate_each_static (discovered w) 0 w) as (Hn' & _ & _ & Ho').
  assert (discovered w1 = discovered w) as Hd.
  { unfold discovered, base_files, base_fault, w1. by rewrite Ht. }
  assert (forall p, p ∈ discovered w1 -> migratable p w1 = false) as Hs.
  { intros p Hp. rewrite Hd in Hp.
    rewrite (migratable_ext p (exec (migrate_each (discovered w) 0) w) w1).
    - apply migrate_each_settles. by left.
    - unfold w1. by rewrite Hn, Hn'.
    - done.
    - unfold w1. by rewrite Ho, Ho'. }
  destruct (migrate_each_settled (discovered w1) 0 w1 Hs) as [Hfs Hzero].
  destruct (exec_main_static w1) as (_ & Hf1 & _ & _).
  split; [by rewrite Hf1 |]. split; [done |].
  intros Hfault Hprint.
  assert (discovery_fault w1 = None) as Hfault1.
  { unfold discovery_fault, base_fault, w1 in *. by rewrite Ht. }
  unfold printable in Hprint. unfold result, exec.
  rewrite (main_unfold w1), Hfault1, Hzero.
  fold w1 in Ho. rewrite Ho.
  destruct (out_fault w (summary 0)); [done |].
  cbn [fst snd out add_out]. split; [done | apply last_snoc].
Qed.

Lemma main_second_run_witness :
  result main (exec main example_world) = Return tt /\
  last (out (exec main (exec main example_world))) = Some (summary 0).
Proof.
  destruct (main_second_run example_world) as (_ & _ & H).
  apply H; vm_compute; reflexivity.
Defined.

(** X3: [main] leaves every file that none of the discovered paths names
    exactly as it is, whatever other names the file has; it changes neither
    what the paths name nor what is discovered, and it only adds lines to
    the two streams.  A file that a discovered path names under another
    name is not covered: see [main_writes_through_link]. *)
Theorem main_frame (w : world) (j : positive) :
  forallb (fun p => negb (bool_decide (names w !! p = Some j)))
          (discovered w) = true ->
  fs (exec main w) !! j = fs w !! j /\
  names (exec main w) = names w /\
  tree (exec main w) = tree w /\
  out w `prefix_of` out (exec main w) /\
  err w `prefix_of` err (exec main w).
Proof.
  intros Hno. rewrite forallb_forall in Hno.
  destruct (exec_main_static w) as (Hn & Hf & Ht & _).
  destruct (migrate_each_streams (discovered w) 0 w) as [Ho He].
  split; [| split; [done | split; [done |]]].
  - rewrite Hf. apply migrate_each_fs_other. intros p Hp%list_elem_of_In E.
    apply Hno in Hp. by rewrite bool_decide_eq_true_2 in Hp.
  - unfold exec in *. rewrite main_unfold.
    destruct (discovery_fault w); [done |].
    destruct (out_fault w (summary (successes (discovered w) w)));
      [done |].
    cbn [fst out err add_out]. split; [| done].
    etrans; [exact Ho |]. by eexists.
Qed.

Lemma main_frame_witness :
  fs (exec main example_linked) !! 2%positive =
    Some (File (inl (py "y = 'openai'")) None) /\
  names (exec main example_linked) = names example_linked.
Proof.
  destruct (main_frame example_linked 2%positive) as (H1 & H2 & _).
  - vm_compute. reflexivity.
  - split; [| exact H2]. refine (eq_trans H1 _). vm_compute. reflexivity.
Defined.

(** The frame stops at the names: the file that the discovered path names
    is rewritten, and so the text read through its other name, which no
    base holds, changes as well. *)
Lemma main_writes_through_link :
  (path_link ∉ discovered example_linked) /\
  readable_text path_link example_linked = Some (py "x = 'google'") /\
  readable_text path_link (exec main example_linked) =
    Some (py "x = LlmProviders.Google").
Proof.
  split; [| split].
  - apply (bool_decide_unpack _). vm_compute. reflexivity.
  - vm_compute. reflexivity.
  - vm_compute. reflexivity.
Qed.

(** X4: a call of [migrate_file] adds one line to the error stream, with
    the path and the detail of the exception, exactly when its [try] block
    raises: the file cannot be read, or its text needs migration and either
    the progress line cannot be printed or the file cannot be opened for
    writing; and it returns [True] exactly when the text needs migration
    and no such exception occurs. *)
Theorem migrate_file_reports (path : str) (w : world) :
  err (exec (migrate_file path) w) =
    err w ++ match failure path w with
             | Some e => [error_line path e]
             | None => []
             end /\
  result (migrate_file path) w =
    Return (eligible path w &&
            match failure path w with Some _ => false | None => true end).
Proof.
  split; [apply migrate_file_err |].
  by rewrite migrate_file_result, migratable_failure.
Qed.

(** With a standard output that refuses every line, the file that could be
    migrated is reported with the detail of the [print] and left as it
    is. *)
Lemma migrate_file_mute :
  migrate_file path_c example_mute =
    (add_err (error_line path_c (py "'utf-8' codec can't encode character"))
       example_mute, Return false).
Proof. vm_compute. reflexivity. Qed.

(** When the discovery under [apps] is refused, [main] ends with that
    exception and prints nothing. *)
Lemma main_unreachable :
  main example_unreachable =
    (example_unreachable, Raise (denied (py "apps"))).
Proof. vm_compute. reflexivity. Qed.

(** X5: a text without a single quote needs no migration and is left as it
    is: a literal between double quotes or backquotes is not a key. *)
Theorem unquoted_text_untouched (content : str) :
  forallb (fun c => negb (N.eqb c quote)) content = true ->
  needs_migration content = false /\ per_file content = content.
Proof.
  intros Hq.
  assert (needs_migration content = false) as E.
  { destruct (needs_migration content) eqn:E; [| done].
    apply any_in_spec in E as (p & Hin & Ho). rewrite keys_all in Hin.
    apply in_map_iff in Hin as ([k v] & <- & Hin%list_elem_of_In).
    destruct (table_ok_spec quote ALL_MAPPINGS all_mappings_ok) as [Hk _].
    destruct (Hk k v Hin) as [Hkey _].
    apply key_ok_spec in Hkey as (body & Hb & _). cbn [fst] in Ho.
    rewrite Hb in Ho. destruct Ho as (l & r & ->).
    rewrite forallb_forall in Hq. specialize (Hq quote).
    rewrite N.eqb_refl in Hq. discriminate Hq.
    apply in_or_app. right. by left. }
  split; [done |]. unfold per_file. by rewrite E.
Qed.

Lemma unquoted_text_untouched_witness :
  needs_migration example_double_quoted = false /\
  per_file example_double_quoted = example_double_quoted.
Proof.
  apply unquoted_text_untouched. vm_compute. reflexivity.
Defined.


(** X6: the import-ensuring step either returns the text as it is or
    returns a text that contains the two-symbol import statement, and with
    it both symbol names; so a second application changes nothing. *)
Theorem add_import_settles (content : str) :
  (add_import_if_needed content = content \/
   contains import_statement (add_import_if_needed content) = true /\
   has_both (add_import_if_needed content) = true) /\
  add_import_if_needed (add_import_if_needed content) =
  add_import_if_needed content.
Proof.
  destruct (add_import_outcome content) as [E | H].
  - split; [by left | by rewrite !E].
  - pose proof (has_both_import _ H) as Hb. split.
    + right. split; [by apply contains_spec | done].
    + by apply add_import_both.
Qed.

(** X7: the two substitution loops return a text in which no key of either
    table occurs exactly as it is. *)
Theorem substitution_needs_a_key (s : str) :
  needs_migration s = false ->
  replace_all PROVIDER_MAPPINGS (replace_all MODEL_MAPPINGS s) = s.
Proof.
  intros Hno. rewrite <- replace_all_app. apply replace_all_absent.
  intros k v Hin.
  destruct (table_ok_spec quote ALL_MAPPINGS all_mappings_ok) as [Hk _].
  destruct (Hk k v Hin) as [Hkey _].
  apply key_ok_spec in Hkey as (body & -> & _). split; [done |].
  intros Ho.
  assert (needs_migration s = true) as E; [| congruence].
  apply any_in_spec. exists (quote :: body). split; [| done].
  rewrite keys_all. apply in_map_iff. exists (quote :: body, v).
  split; [done |]. by apply list_elem_of_In.
Qed.

Lemma substitution_needs_a_key_witness :
  replace_all PROVIDER_MAPPINGS (replace_all MODEL_MAPPINGS example_wrong_case)
  = example_wrong_case.
Proof.
  apply substitution_needs_a_key. vm_compute. reflexivity.
Defined.


(** X8: when the one pass that replaces each key where it stands goes
    through, that is when no key that is replaced ends with a quote at
    which another key starts, the eighteen loop turns of [migrate_file],
    one after the other, return what that pass returns. *)
Theorem substitution_is_one_pass (s out : str) :
  one_pass ALL_MAPPINGS 0 s = Some out ->
  replace_all PROVIDER_MAPPINGS (replace_all MODEL_MAPPINGS s) = out.
Proof.
  intros H. rewrite <- replace_all_app.
  destruct (table_strict_spec quote ALL_MAPPINGS all_mappings_strict)
    as (Hk & Hs & Ha & Hnd).
  by apply (replace_all_one_pass quote ALL_MAPPINGS Hk Hs Ha Hnd).
Qed.

Lemma substitution_is_one_pass_witness :
  replace_all PROVIDER_MAPPINGS (replace_all MODEL_MAPPINGS example_three) =
  py "f(LlmModels.Gpt4o, LlmProviders.OpenAI, LlmModels.Gpt4oMini, LlmModels.Gpt4o)".
Proof.
  apply substitution_is_one_pass. vm_compute. reflexivity.
Defined.

(** X9: the pattern of the rewrite matches at the start of a text exactly
    when the text starts with [import], optional white space, a brace, a
    non-empty text without a closing brace, the closing brace, optional
    white space, [from], optional white space and the quoted module path
    with its semicolon; the match ends where that clause ends. *)
Theorem import_re_matches_braced_clause (s rest : str) :
  re_match import_re s = Some rest <->
  exists ws1 syms ws2 ws3,
    clause_ok ws1 syms ws2 ws3 /\ s = import_clause ws1 syms ws2 ws3 ++ rest.
Proof.
  split; [apply import_re_sound |].
  intros (ws1 & syms & ws2 & ws3 & Hok & ->). by apply import_re_complete.
Qed.

(** X10: a call of [migrate_file] on a file that can be read, whose text
    needs migration, whose progress line standard output takes and that can
    be written does three things and no more: it prints the progress line,
    it replaces the text of the file that the path names by the rewritten
    text, which is never the text it read, and it returns [True]. *)
Theorem migrate_file_success (path content : str) (i : positive)
    (w : world) :
  names w !! path = Some i ->
  readable_text path w = Some content ->
  needs_migration content = true ->
  printable (migrating_line path) w = true ->
  writable path w = true ->
  migrate_file path w =
    (set_fs (<[i := File (inl (rewrite content)) None]> (fs w))
       (add_out (migrating_line path) w), Return true) /\
  rewrite content <> content.
Proof.
  intros Hi Hr Hn Hp Hw. split.
  - rewrite migrate_file_cases.
    unfold readable_text, writable, printable, file_of in *. rewrite Hi in *.
    destruct (fs w !! i) as [f|]; [| done].
    destruct (f_data f) as [c | e]; [| done]. injection Hr as ->.
    rewrite Hn. destruct (out_fault w (migrating_line path)); [done |].
    by destruct (f_locked f).
  - intros E. pose proof (needs_migration_rewrite content) as H.
    rewrite E in H. congruence.
Qed.

Lemma migrate_file_success_witness :
  migrate_file path_c example_world =
    (set_fs (<[3%positive := File (inl (rewrite (py "x = 'google'"))) None]>
               (fs example_world))
       (add_out (migrating_line path_c) example_world), Return true) /\
  rewrite (py "x = 'google'") <> py "x = 'google'".
Proof.
  apply migrate_file_success; vm_compute; reflexivity.
Defined.

(** X11: a text that needs migration still needs it with any text put
    before and after it: a literal is found wherever it stands. *)
Theorem needs_migration_in_context (l s r : str) :
  needs_migration s = true -> needs_migration (l ++ s ++ r) = true.
Proof.
  intros (p & Hin & Ho)%any_in_spec. apply any_in_spec. exists p.
  split; [done |]. by apply occurs_app_r, occurs_app_l.
Qed.

Lemma needs_migration_in_context_witness :
  needs_migration (py "// was " ++ py "'sonar-pro'" ++ py " before") = true.
Proof.
  apply needs_migration_in_context. vm_compute. reflexivity.
Defined.

(** X12: the loop of [main] prints, in the order of the files, one progress
    line for each file that is read, needs migration and whose line
    standard output takes, and one error line for each file whose [try]
    block raises, and nothing else; no file is both counted and reported,
    and no file is counted without a progress line. *)
Theorem migrate_each_streams_and_count (files : list str) (n : nat)
    (w : world) :
  out (exec (migrate_each files n) w) = out w ++ progress files w /\
  err (exec (migrate_each files n) w) = err w ++ reports files w /\
  successes files w <= length (progress files w) /\
  successes files w + length (reports files w) <= length files.
Proof.
  revert n w. induction files as [|p files IH]; intros n w.
  - cbn. rewrite !app_nil_r. repeat split; lia.
  - rewrite exec_migrate_each_cons. cbn [progress reports successes].
    destruct (IH (if migratable p w then n + 1 else n)
                (exec (migrate_file p) w)) as (Ho & He & H1 & H2).
    rewrite Ho, He, migrate_file_out, migrate_file_err, <- !app_assoc.
    rewrite !length_app. cbn [length].
    split; [done |]. split; [done |]. split.
    + unfold migratable. fold (announced p w).
      destruct (announced p w), (writable p w); cbn [andb length]; lia.
    + rewrite migratable_failure.
      destruct (eligible p w), (failure p w); cbn [andb length]; lia.
Qed.
